(** * SlimDeque: a deque over a cyclic buffer

    Shallow embedding of [src/data-oriented-slim-deque.ts] and the
    verification of its buffer management: index arithmetic over the
    wrapping array, capacity growth with relocation, and the contracts of
    the public operations.

    Modelling conventions.
    - A JavaScript [number] is a value of [number] below: NaN, the two
      infinities, or a finite value carried as the rational it denotes.
      Comparisons, [Math.floor] and [Math.ceil] are exact, as they are on
      binary64 values.  The one inexact operation of the class is the product
      [currCapacity * capacityIncrementFactor]: its rounding is the parameter
      [Rounding], of which only the accuracy of round-to-nearest is assumed.
      Overflow to infinity and the sign of zero are not represented.
    - The private counters [_frontIndex], [_size] and
      [_numberOfCapacityIncrements] only ever hold integers (they start at 0
      and change by steps of one or by one buffer length), so they are [Z].
    - [Array<T | undefined>] is a [list (option T)]; [None] is [undefined].
    - A thrown exception is an [Outcome] next to the state the object is left
      in, so that what a failing call did to the object stays visible.
    - Allocating an array of any natural length succeeds: the engine's length
      limit and memory exhaustion are outside the model. *)

From Stdlib Require Import ZArith QArith Qround Lia.
From stdpp Require Import base option list.

Open Scope Z_scope.

(** ** JavaScript numbers *)

Inductive number : Type :=
| NaN
| PosInfinity
| NegInfinity
| Finite (q : Q).

Definition Qlt_bool (x y : Q) : bool := negb (Qle_bool y x).

(** [a < b] *)
Definition num_lt (a b : number) : bool :=
  match a, b with
  | NaN, _ | _, NaN => false
  | Finite x, Finite y => Qlt_bool x y
  | _, NegInfinity => false
  | NegInfinity, _ => true
  | PosInfinity, _ => false
  | Finite _, PosInfinity => true
  end.

(** [a > b] *)
Definition num_gt (a b : number) : bool := num_lt b a.

(** [a >= b] *)
Definition num_ge (a b : number) : bool :=
  match a, b with
  | NaN, _ | _, NaN => false
  | _, _ => negb (num_lt a b)
  end.

(** [a === b] *)
Definition num_strict_eq (a b : number) : bool :=
  match a, b with
  | Finite x, Finite y => Qeq_bool x y
  | PosInfinity, PosInfinity => true
  | NegInfinity, NegInfinity => true
  | _, _ => false
  end.

Definition Qsign_pos (q : Q) : bool := Qlt_bool 0 q.

(** The unit roundoff of binary64, [2^-53]. *)
Definition unit_roundoff : Q := 1 # 9007199254740992.

(** Rounding of a finite product.  [rnd x] is the number the machine stores
    for the exact product [x]; [rnd_accurate] is the standard model of
    floating-point arithmetic, which round-to-nearest satisfies on every
    product of at least 1 below the overflow threshold: the relative error is
    at most the unit roundoff.  Exact arithmetic is the instance [rnd x = x]. *)
Class Rounding : Type := {
  rnd : Q → Q;
  rnd_accurate : ∀ x : Q, (1 <= x)%Q →
    (x * (1 - unit_roundoff) <= rnd x)%Q ∧ (rnd x <= x * (1 + unit_roundoff))%Q
}.

(** [a * b] *)
Definition num_mul {R : Rounding} (a b : number) : number :=
  let inf (positive : bool) := if positive then PosInfinity else NegInfinity in
  let scale (positive : bool) (q : Q) :=
    if Qeq_bool q 0 then NaN else inf (Bool.eqb positive (Qsign_pos q)) in
  match a, b with
  | NaN, _ | _, NaN => NaN
  | Finite x, Finite y => Finite (rnd (x * y))
  | PosInfinity, Finite y => scale true y
  | NegInfinity, Finite y => scale false y
  | Finite x, PosInfinity => scale true x
  | Finite x, NegInfinity => scale false x
  | PosInfinity, PosInfinity | NegInfinity, NegInfinity => PosInfinity
  | PosInfinity, NegInfinity | NegInfinity, PosInfinity => NegInfinity
  end.

Definition Math_floor (x : number) : number :=
  match x with
  | Finite q => Finite (inject_Z (Qfloor q))
  | _ => x
  end.

Definition Math_ceil (x : number) : number :=
  match x with
  | Finite q => Finite (inject_Z (Qceiling q))
  | _ => x
  end.

Definition of_Z (z : Z) : number := Finite (inject_Z z).

(** ** Exceptions and outcomes *)

(** What the class can throw.  [InvalidArgument] is the [Error] raised by the
    constructor's own checks, [EmptyCollection] the one raised by [front],
    [back], [popFront] and [popBack]; [RangeError] is what [new Array(len)]
    raises when [len] is not an array length. *)
Inductive Error : Type :=
| InvalidArgument
| EmptyCollection
| RangeError.

(** How a call ends.  [OutOfFuel] is the answer of a loop of the model whose
    bound on the number of turns was reached before its condition failed. *)
Inductive Outcome (A : Type) : Type :=
| Return (a : A)
| Throw (e : Error)
| OutOfFuel.

Arguments Return {A} a.
Arguments Throw {A} e.
Arguments OutOfFuel {A}.

(** The literal [1.1] denotes the binary64 value nearest to 11/10, which is
    just above it; no binary64 value lies between the two, so on every value
    a caller can pass, comparing with 11/10 decides the same. *)
Definition MIN_ALLOWED_CAPACITY_INCREMENT_FACTOR : number := Finite 1.1.
Definition MAX_ALLOWED_CAPACITY_INCREMENT_FACTOR : number := Finite 2.
Definition DEFAULT_SLIM_DEQUE_INITIAL_CAPACITY : number := Finite 128.
Definition DEFAULT_SLIM_DEQUE_CAPACITY_INCREMENT_FACTOR : number := Finite 1.5.

Definition isNaturalNumber (num : number) : bool :=
  let floored := Math_floor num in
  num_ge floored (Finite 1) && num_strict_eq floored num.

Definition _validateCapacityIncrementFactor (factor : number) : Outcome unit :=
  if num_lt factor MIN_ALLOWED_CAPACITY_INCREMENT_FACTOR then Throw InvalidArgument
  else if num_gt factor MAX_ALLOWED_CAPACITY_INCREMENT_FACTOR then Throw InvalidArgument
  else Return tt.

Section Deque.

Context {R : Rounding} {T : Type}.

(** ** Arrays *)

(** [a[i]]: a missing property reads as [undefined]. *)
Definition array_get (a : list (option T)) (i : Z) : option T :=
  if i <? 0 then None else mjoin (a !! Z.to_nat i).

(** [a[i] = v]: inside the array the slot is overwritten; at or past the end
    the array is extended, the skipped slots being holes.  A negative [i] is
    not an element index: the assignment leaves the elements and the length
    alone ([array_set_in_range] and [Inv] show that the deque never does it). *)
Definition array_set (a : list (option T)) (i : Z) (v : option T) : list (option T) :=
  if i <? 0 then a
  else if i <? Z.of_nat (length a) then <[Z.to_nat i := v]> a
  else a ++ replicate (Z.to_nat i - length a) None ++ [v].

(** [new Array(len)]: [len] holes, or a [RangeError] when [len] is not a
    non-negative integer. *)
Definition Array_new (len : number) : Outcome (list (option T)) :=
  match len with
  | Finite q =>
      if Qle_bool 0 q && Qeq_bool (inject_Z (Qfloor q)) q
      then Return (replicate (Z.to_nat (Qfloor q)) None)
      else Throw RangeError
  | _ => Throw RangeError
  end.

(** [a.fill(v)] *)
Definition Array_fill (a : list (option T)) (v : option T) : list (option T) :=
  replicate (length a) v.

(** ** The object *)

Record SlimDeque : Type := mkSlimDeque {
  _cyclicBuffer : list (option T);
  _frontIndex : Z;
  _size : Z;
  _numberOfCapacityIncrements : Z;
  _capacityIncrementFactor : number
}.

Definition set_cyclicBuffer (b : list (option T)) (this : SlimDeque) : SlimDeque :=
  mkSlimDeque b (_frontIndex this) (_size this)
    (_numberOfCapacityIncrements this) (_capacityIncrementFactor this).

Definition set_frontIndex (i : Z) (this : SlimDeque) : SlimDeque :=
  mkSlimDeque (_cyclicBuffer this) i (_size this)
    (_numberOfCapacityIncrements this) (_capacityIncrementFactor this).

Definition set_size (n : Z) (this : SlimDeque) : SlimDeque :=
  mkSlimDeque (_cyclicBuffer this) (_frontIndex this) n
    (_numberOfCapacityIncrements this) (_capacityIncrementFactor this).

Definition set_numberOfCapacityIncrements (n : Z) (this : SlimDeque) : SlimDeque :=
  mkSlimDeque (_cyclicBuffer this) (_frontIndex this) (_size this)
    n (_capacityIncrementFactor this).

(** [this._cyclicBuffer.length] *)
Definition buffer_length (this : SlimDeque) : Z :=
  Z.of_nat (length (_cyclicBuffer this)).

Definition constructor (initialCapacity capacityIncrementFactor : number)
  : Outcome SlimDeque :=
  if negb (isNaturalNumber initialCapacity) then Throw InvalidArgument
  else
    match _validateCapacityIncrementFactor capacityIncrementFactor with
    | Throw e => Throw e
    | OutOfFuel => OutOfFuel
    | Return _ =>
        match Array_new initialCapacity with
        | Throw e => Throw e
        | OutOfFuel => OutOfFuel
        | Return holes =>
            Return (mkSlimDeque (Array_fill holes None) 0 0 0 capacityIncrementFactor)
        end
    end.

(** ** Methods: computations over [this] *)

Definition M (A : Type) : Type := SlimDeque → Outcome A * SlimDeque.

Definition ret {A} (a : A) : M A := fun this => (Return a, this).
Definition throw {A} (e : Error) : M A := fun this => (Throw e, this).
Definition out_of_fuel {A} : M A := fun this => (OutOfFuel, this).
Definition bind {A B} (m : M A) (k : A → M B) : M B := fun this =>
  match m this with
  | (Return a, this') => k a this'
  | (Throw e, this') => (Throw e, this')
  | (OutOfFuel, this') => (OutOfFuel, this')
  end.
Definition read {A} (f : SlimDeque → A) : M A := fun this => (Return (f this), this).
Definition modify (f : SlimDeque → SlimDeque) : M unit := fun this => (Return tt, f this).

Notation "'do' x <- m ; k" := (bind m (fun x => k))
  (at level 10, x name, m at level 100, k at level 200).
Notation "m ;; k" := (bind m (fun _ => k))
  (at level 100, k at level 200, right associativity).

(** *** Accessors *)

Definition size : M Z := read _size.
Definition isEmpty : M bool := read (fun this => _size this =? 0).
Definition capacity : M Z := read buffer_length.
Definition numberOfCapacityIncrements : M Z := read _numberOfCapacityIncrements.

(** *** Index arithmetic *)

Definition _fixIndexIfNecessary (candidateIndex : Z) : M Z :=
  do len <- read buffer_length;
  if candidateIndex >=? len then ret (candidateIndex - len)
  else if candidateIndex <? 0 then ret (candidateIndex + len)
  else ret candidateIndex.

Definition _calculateNewBackIndex : M Z :=
  do this <- read id;
  _fixIndexIfNecessary (_frontIndex this + _size this).

Definition _calculateCurrentBackIndex : M Z :=
  do this <- read id;
  _fixIndexIfNecessary (_frontIndex this + _size this - 1).

Definition _calculateNewFrontIndex : M Z :=
  do this <- read id;
  _fixIndexIfNecessary (_frontIndex this - 1).

(** *** Traversal

    [C] is what the callback's closure captures besides [this].  The loop
    re-reads [this._size] and [this._cyclicBuffer.length] at every turn, as
    the source does; [fuel] bounds the number of turns and [None] reports
    that it ran out. *)

Definition TraverseCallback (C : Type) : Type := Z → C * SlimDeque → C * SlimDeque.

Fixpoint traverse_loop {C} (fuel : nat) (callback : TraverseCallback C)
    (itemsTraversed currentDequeIndex : Z) (w : C * SlimDeque)
  : option (C * SlimDeque) :=
  if itemsTraversed <? _size (snd w) then
    match fuel with
    | O => None
    | S fuel' =>
        let w := callback currentDequeIndex w in
        let itemsTraversed := itemsTraversed + 1 in
        let currentDequeIndex := currentDequeIndex + 1 in
        let currentDequeIndex :=
          if currentDequeIndex =? buffer_length (snd w) then 0 else currentDequeIndex in
        traverse_loop fuel' callback itemsTraversed currentDequeIndex w
    end
  else Some w.

Definition _traverseFromFrontToBack {C} (callback : TraverseCallback C)
    (w : C * SlimDeque) : option (C * SlimDeque) :=
  traverse_loop (Z.to_nat (_size (snd w))) callback 0 (_frontIndex (snd w)) w.

(** *** Growth *)

Definition _increaseCapacityIfNecessary : M unit := fun this =>
  let currCapacity := buffer_length this in
  if _size this <? currCapacity then (Return tt, this)
  else
    let newCapacity :=
      Math_ceil (num_mul (of_Z currCapacity) (_capacityIncrementFactor this)) in
    match Array_new newCapacity with
    | Throw e => (Throw e, this)
    | OutOfFuel => (OutOfFuel, this)
    | Return holes =>
        let newCyclicBuffer := Array_fill holes None in
        let newBufferLastOccupiedIndex := 0 in
        let callback : TraverseCallback (list (option T) * Z) :=
          fun currentIndex '((newCyclicBuffer, newBufferLastOccupiedIndex), this) =>
            let newCyclicBuffer :=
              array_set newCyclicBuffer newBufferLastOccupiedIndex
                (array_get (_cyclicBuffer this) currentIndex) in
            let newBufferLastOccupiedIndex := newBufferLastOccupiedIndex + 1 in
            let this :=
              set_cyclicBuffer (array_set (_cyclicBuffer this) currentIndex None) this in
            ((newCyclicBuffer, newBufferLastOccupiedIndex), this) in
        match _traverseFromFrontToBack callback
                ((newCyclicBuffer, newBufferLastOccupiedIndex), this) with
        | None => (OutOfFuel, this)
        | Some ((newCyclicBuffer, _), this) =>
            let this := set_frontIndex 0 this in
            let this := set_cyclicBuffer newCyclicBuffer this in
            let this :=
              set_numberOfCapacityIncrements (_numberOfCapacityIncrements this + 1) this in
            (Return tt, this)
        end
    end.

(** *** Peeking, pushing and popping *)

Definition front : M (option T) :=
  do this <- read id;
  if _size this =? 0 then throw EmptyCollection
  else ret (array_get (_cyclicBuffer this) (_frontIndex this)).

Definition back : M (option T) :=
  do this <- read id;
  if _size this =? 0 then throw EmptyCollection
  else
    do backIndex <- _calculateCurrentBackIndex;
    read (fun this => array_get (_cyclicBuffer this) backIndex).

Definition pushBack (item : T) : M unit :=
  _increaseCapacityIfNecessary ;;
  do newBackIndex <- _calculateNewBackIndex;
  modify (fun this =>
    set_cyclicBuffer (array_set (_cyclicBuffer this) newBackIndex (Some item)) this) ;;
  modify (fun this => set_size (_size this + 1) this).

Definition pushFront (item : T) : M unit :=
  _increaseCapacityIfNecessary ;;
  do newFrontIndex <- _calculateNewFrontIndex;
  modify (set_frontIndex newFrontIndex) ;;
  modify (fun this =>
    set_cyclicBuffer (array_set (_cyclicBuffer this) (_frontIndex this) (Some item)) this) ;;
  modify (fun this => set_size (_size this + 1) this).

Definition popBack : M (option T) :=
  do this <- read id;
  if _size this =? 0 then throw EmptyCollection
  else
    do currentBackIndex <- _calculateCurrentBackIndex;
    do oldBackItem <- read (fun this => array_get (_cyclicBuffer this) currentBackIndex);
    modify (fun this =>
      set_cyclicBuffer (array_set (_cyclicBuffer this) currentBackIndex None) this) ;;
    modify (fun this => set_size (_size this - 1) this) ;;
    ret oldBackItem.

Definition popFront : M (option T) :=
  do this <- read id;
  if _size this =? 0 then throw EmptyCollection
  else
    do oldFrontItem <- read (fun this => array_get (_cyclicBuffer this) (_frontIndex this));
    modify (fun this =>
      set_cyclicBuffer (array_set (_cyclicBuffer this) (_frontIndex this) None) this) ;;
    modify (fun this => set_frontIndex (_frontIndex this + 1) this) ;;
    (do this <- read id;
     if _frontIndex this =? buffer_length this then modify (set_frontIndex 0)
     else ret tt) ;;
    modify (fun this => set_size (_size this - 1) this) ;;
    ret oldFrontItem.

(** *** Clearing and the snapshot *)

Fixpoint clear_loop (fuel : nat) : M unit :=
  do empty <- isEmpty;
  if negb empty then
    match fuel with
    | O => out_of_fuel
    | S fuel' => popFront ;; clear_loop fuel'
    end
  else ret tt.

Definition clear : M unit :=
  do n <- size;
  clear_loop (Z.to_nat n) ;;
  modify (set_frontIndex 0).

Definition getSnapshot : M (list (option T)) := fun this =>
  match Array_new (of_Z (_size this)) with
  | Throw e => (Throw e, this)
  | OutOfFuel => (OutOfFuel, this)
  | Return snapshotFrontToBack =>
      let snapshotIndex := 0 in
      let callback : TraverseCallback (list (option T) * Z) :=
        fun currentIndex '((snapshotFrontToBack, snapshotIndex), this) =>
          ((array_set snapshotFrontToBack snapshotIndex
              (array_get (_cyclicBuffer this) currentIndex),
            snapshotIndex + 1), this) in
      match _traverseFromFrontToBack callback
              ((snapshotFrontToBack, snapshotIndex), this) with
      | None => (OutOfFuel, this)
      | Some ((snapshotFrontToBack, _), this) => (Return snapshotFrontToBack, this)
      end
  end.

End Deque.

Arguments SlimDeque T : clear implicits.
Arguments M T A : clear implicits.

(** ** Running a client *)

(** A call made by a client that catches what the call throws: what remains
    is the object. *)
Definition exec {T A} (m : M T A) (this : SlimDeque T) : SlimDeque T := snd (m this).

Inductive Op (T : Type) : Type :=
| PushFront (item : T)
| PushBack (item : T)
| PopFront
| PopBack
| Clear
| GetSnapshot
| Front
| Back.

Arguments PushFront {T} item.
Arguments PushBack {T} item.
Arguments PopFront {T}.
Arguments PopBack {T}.
Arguments Clear {T}.
Arguments GetSnapshot {T}.
Arguments Front {T}.
Arguments Back {T}.

Definition run_op {R : Rounding} {T} (op : Op T) (this : SlimDeque T) : SlimDeque T :=
  match op with
  | PushFront item => exec (pushFront item) this
  | PushBack item => exec (pushBack item) this
  | PopFront => exec popFront this
  | PopBack => exec popBack this
  | Clear => exec clear this
  | GetSnapshot => exec getSnapshot this
  | Front => exec front this
  | Back => exec back this
  end.

Definition run {R : Rounding} {T} (ops : list (Op T)) (this : SlimDeque T) : SlimDeque T :=
  fold_left (fun d op => run_op op d) ops this.

(** ** The reference deque: a list, front first *)

Definition ref_op {T} (op : Op T) (l : list T) : list T :=
  match op with
  | PushFront item => item :: l
  | PushBack item => l ++ [item]
  | PopFront => tail l
  | PopBack => removelast l
  | Clear => []
  | GetSnapshot | Front | Back => l
  end.

Definition ref_run {T} (ops : list (Op T)) (l : list T) : list T :=
  fold_left (fun l op => ref_op op l) ops l.

(** ** Abstraction *)

(** What [_fixIndexIfNecessary] computes, as a function of the buffer length. *)
Definition fixIndex (len candidateIndex : Z) : Z :=
  if candidateIndex >=? len then candidateIndex - len
  else if candidateIndex <? 0 then candidateIndex + len
  else candidateIndex.

(** The slot that holds the [k]-th item counted from the front. *)
Definition slot {T} (this : SlimDeque T) (k : nat) : option T :=
  array_get (_cyclicBuffer this)
    (fixIndex (buffer_length this) (_frontIndex this + Z.of_nat k)).

(** The occupied region, front to back. *)
Definition slots {T} (this : SlimDeque T) : list (option T) :=
  slot this <$> seq 0 (Z.to_nat (_size this)).

(** The data model's constraints on the indices. *)
Definition Inv {T} (this : SlimDeque T) : Prop :=
  0 <= _frontIndex this < buffer_length this ∧ 0 <= _size this <= buffer_length this.

(** The data model's constraint on the factor: a real number of [[1.1, 2]]. *)
Definition in_range (factor : number) : Prop :=
  ∃ q : Q, factor = Finite q ∧ (1.1 <= q)%Q ∧ (q <= 2)%Q.

(** [this] holds exactly the items of [l], in this order. *)
Definition Rep {T} (this : SlimDeque T) (l : list T) : Prop :=
  Inv this ∧ slots this = Some <$> l.

(** What [_validateCapacityIncrementFactor] accepts. *)
Definition accepted (factor : number) : Prop :=
  _validateCapacityIncrementFactor factor = Return tt.

(** [initialCapacity] is the positive integer [n]. *)
Definition is_positive_integer (initialCapacity : number) (n : Z) : Prop :=
  1 <= n ∧ ∃ q : Q, initialCapacity = Finite q ∧ (q == inject_Z n)%Q.

Definition is_push {T} (op : Op T) : Prop :=
  match op with
  | PushFront _ | PushBack _ => True
  | _ => False
  end.

Definition is_pop {T} (op : Op T) : Prop :=
  match op with
  | PopFront | PopBack => True
  | _ => False
  end.

(** ** The steps of the methods, as functions of the object *)

Section Transformers.

Context {R : Rounding} {T : Type}.
Implicit Types (d : SlimDeque T) (item : T).

(** The capacity a full buffer grows to, when the factor is the finite [q]. *)
Definition grownCapacity d (q : Q) : Z :=
  Qceiling (rnd (inject_Z (buffer_length d) * q)).

(** The object after a growth: the occupied region moved to the low indices
    of a buffer of the new capacity. *)
Definition grown d (q : Q) : SlimDeque T :=
  mkSlimDeque
    (slots d ++ replicate (Z.to_nat (grownCapacity d q) - Z.to_nat (_size d)) None)
    0 (_size d) (_numberOfCapacityIncrements d + 1) (_capacityIncrementFactor d).

(** The object after [pushBack item], once there is room. *)
Definition pushedBack item d : SlimDeque T :=
  mkSlimDeque
    (array_set (_cyclicBuffer d)
       (fixIndex (buffer_length d) (_frontIndex d + _size d)) (Some item))
    (_frontIndex d) (_size d + 1)
    (_numberOfCapacityIncrements d) (_capacityIncrementFactor d).

(** The object after [pushFront item], once there is room. *)
Definition pushedFront item d : SlimDeque T :=
  let newFrontIndex := fixIndex (buffer_length d) (_frontIndex d - 1) in
  mkSlimDeque
    (array_set (_cyclicBuffer d) newFrontIndex (Some item))
    newFrontIndex (_size d + 1)
    (_numberOfCapacityIncrements d) (_capacityIncrementFactor d).

(** The object after a successful [popFront]. *)
Definition poppedFront d : SlimDeque T :=
  let buffer := array_set (_cyclicBuffer d) (_frontIndex d) None in
  mkSlimDeque buffer
    (if _frontIndex d + 1 =? Z.of_nat (length buffer) then 0 else _frontIndex d + 1)
    (_size d - 1)
    (_numberOfCapacityIncrements d) (_capacityIncrementFactor d).

(** The object after a successful [popBack]. *)
Definition poppedBack d : SlimDeque T :=
  mkSlimDeque
    (array_set (_cyclicBuffer d)
       (fixIndex (buffer_length d) (_frontIndex d + _size d - 1)) None)
    (_frontIndex d) (_size d - 1)
    (_numberOfCapacityIncrements d) (_capacityIncrementFactor d).

(** [n] calls of [popFront] in a row. *)
Fixpoint popFront_times (n : nat) d : SlimDeque T :=
  match n with
  | O => d
  | S n' => popFront_times n' (exec popFront d)
  end.

(** The spec's description of [clear]: [popFront] until the deque is empty,
    which takes one call per stored item, then [frontIndex] back to 0. *)
Definition popFront_until_empty_then_reset d : SlimDeque T :=
  set_frontIndex 0 (popFront_times (Z.to_nat (_size d)) d).

End Transformers.

(** ** Notions for the behaviour beyond the specification's statements *)

(** The index [i] is outside the occupied region of a buffer of length [len]
    whose front is at [front] and that holds [size] items. *)
Definition unoccupied (len front size i : Z) : Prop :=
  ∀ k : Z, 0 <= k < size → i ≠ fixIndex len (front + k).

(** Every slot outside the occupied region is [undefined]: the buffer keeps
    no reference to an item that was removed. *)
Definition Clean {T} (this : SlimDeque T) : Prop :=
  ∀ i : Z, 0 <= i < buffer_length this →
    unoccupied (buffer_length this) (_frontIndex this) (_size this) i →
    array_get (_cyclicBuffer this) i = None.

(** The number of [pushFront] and [pushBack] calls in a sequence. *)
Fixpoint count_pushes {T} (ops : list (Op T)) : Z :=
  match ops with
  | [] => 0
  | (PushFront _ | PushBack _) :: ops' => 1 + count_pushes ops'
  | _ :: ops' => count_pushes ops'
  end.

(** A callback for [_traverseFromFrontToBack] that notes the indices it is
    given, in the order of the calls, and leaves the object alone. *)
Definition record_index {T} : TraverseCallback (T:=T) (list Z) :=
  fun currentIndex '(seen, this) => (seen ++ [currentIndex], this).

(** ** A client that keeps what each call answers *)

(** What a member hands back: nothing, one slot, or an array of slots. *)
Inductive Result (T : Type) : Type :=
| Done
| Item (v : option T)
| Items (a : list (option T)).

Arguments Done {T}.
Arguments Item {T} v.
Arguments Items {T} a.

(** One call of a member, with its answer or what it threw. *)
Definition call {R : Rounding} {T} (op : Op T) : M T (Result T) :=
  match op with
  | PushFront item => bind (pushFront item) (fun _ => ret Done)
  | PushBack item => bind (pushBack item) (fun _ => ret Done)
  | PopFront => bind popFront (fun v => ret (Item v))
  | PopBack => bind popBack (fun v => ret (Item v))
  | Clear => bind clear (fun _ => ret Done)
  | GetSnapshot => bind getSnapshot (fun a => ret (Items a))
  | Front => bind front (fun v => ret (Item v))
  | Back => bind back (fun v => ret (Item v))
  end.

(** The calls of a sequence one after the other, the client catching what a
    call throws and going on: how each call ended, in order, and the object
    left at the end. *)
Fixpoint run_trace {R : Rounding} {T} (ops : list (Op T)) (this : SlimDeque T)
  : list (Outcome (Result T)) * SlimDeque T :=
  match ops with
  | [] => ([], this)
  | op :: ops' =>
      let '(outcome, this) := call op this in
      let '(outcomes, this) := run_trace ops' this in
      (outcome :: outcomes, this)
  end.

(** The items that the pushes of a sequence are given, in the order of the
    calls. *)
Definition pushed_items {T} (ops : list (Op T)) : list T :=
  omap (λ op, match op with
              | PushFront item | PushBack item => Some item
              | _ => None
              end) ops.

(** ** Sample objects and the exact machine *)

(** A new deque of capacity 1 and factor 1.1. *)
Definition fresh_1 : SlimDeque Z := mkSlimDeque [None] 0 0 0 (Finite 1.1).

(** A full deque whose occupied region wraps: 8 is at the front, in the last
    slot, and 9 and 10 follow in the first two. *)
Definition wrapped_full : SlimDeque Z :=
  mkSlimDeque [Some 9; Some 10; Some 8] 2 3 4 (Finite 1.5).

Definition sample_calls : list (Op Z) :=
  [PushFront 1; PushFront 2; PopBack; PopBack; PopBack; PushBack 3; Front;
   PushBack 4; PushFront 5; PopFront; GetSnapshot; PushBack 6].

(** The machine whose products are exact. *)
Definition exact_Rounding : Rounding.
Proof.
  refine {| rnd := fun x => x |}.
  intros x Hx. assert (Hnn : (0 <= x)%Q) by (apply Qle_trans with (y := 1%Q); done).
  split.
  - apply Qle_trans with (y := (x * 1)%Q).
    + rewrite !(Qmult_comm x). by apply Qmult_le_compat_r.
    + rewrite Qmult_1_r. apply Qle_refl.
  - apply Qle_trans with (y := (x * 1)%Q).
    + rewrite Qmult_1_r. apply Qle_refl.
    + rewrite !(Qmult_comm x). by apply Qmult_le_compat_r.
Defined.

(** * Proofs *)

(** ** Arrays: reading after writing *)

Section ArrayFacts.

Context {R : Rounding} {T : Type}.
Implicit Types (a : list (option T)) (v : option T).

Lemma array_set_in_range a i v :
  0 <= i < Z.of_nat (length a) → array_set a i v = <[Z.to_nat i := v]> a.
Proof.
  intros Hi. unfold array_set.
  destruct (Z.ltb_spec i 0); [lia|].
  destruct (Z.ltb_spec i (Z.of_nat (length a))); [done|lia].
Qed.

Lemma array_set_length a i v :
  0 <= i < Z.of_nat (length a) → length (array_set a i v) = length a.
Proof. intros Hi. rewrite array_set_in_range by done. apply length_insert. Qed.

Lemma array_get_lookup a i :
  0 <= i → array_get a i = mjoin (a !! Z.to_nat i).
Proof. intros Hi. unfold array_get. destruct (Z.ltb_spec i 0); [lia|done]. Qed.

Lemma array_get_set_eq a i v :
  0 <= i < Z.of_nat (length a) → array_get (array_set a i v) i = v.
Proof.
  intros Hi. rewrite array_set_in_range, array_get_lookup by lia.
  rewrite list_lookup_insert_eq by lia. done.
Qed.

Lemma array_get_set_ne a i j v :
  0 <= i < Z.of_nat (length a) → 0 <= j → i ≠ j →
  array_get (array_set a i v) j = array_get a j.
Proof.
  intros Hi Hj Hne. rewrite array_set_in_range, !array_get_lookup by lia.
  rewrite list_lookup_insert_ne by lia. done.
Qed.

Lemma Array_new_of_Z (n : Z) :
  0 <= n → Array_new (T:=T) (of_Z n) = Return (replicate (Z.to_nat n) None).
Proof.
  intros Hn. unfold Array_new, of_Z. rewrite Qfloor_Z.
  replace (Qle_bool 0 (inject_Z n)) with true.
  - rewrite Qeq_bool_refl. done.
  - symmetry. apply Qle_bool_iff. unfold Qle. simpl. lia.
Qed.

End ArrayFacts.

(** ** Index arithmetic *)

Lemma fixIndex_range len c :
  0 < len → - len <= c < 2 * len → 0 <= fixIndex len c < len.
Proof.
  intros Hlen Hc. unfold fixIndex.
  destruct (Z.geb_spec c len); [lia|].
  destruct (Z.ltb_spec c 0); lia.
Qed.

Lemma fixIndex_small len c : 0 <= c < len → fixIndex len c = c.
Proof.
  intros Hc. unfold fixIndex.
  destruct (Z.geb_spec c len); [lia|].
  destruct (Z.ltb_spec c 0); lia.
Qed.

(** One turn of the traversal's cursor is one more step from the front. *)
Lemma fixIndex_step len f0 k :
  0 <= f0 < len → 0 <= k < len →
  (if fixIndex len (f0 + k) + 1 =? len then 0 else fixIndex len (f0 + k) + 1)
  = fixIndex len (f0 + (k + 1)).
Proof.
  intros Hf Hk. unfold fixIndex.
  destruct (Z.geb_spec (f0 + k) len), (Z.geb_spec (f0 + (k + 1)) len);
    repeat match goal with
           | |- context [?a <? ?b] => destruct (Z.ltb_spec a b)
           | |- context [?a =? ?b] => destruct (Z.eqb_spec a b)
           end; lia.
Qed.

(** Distinct offsets below the length name distinct slots. *)
Lemma fixIndex_inj len f0 j k :
  0 <= f0 < len → 0 <= j < len → 0 <= k < len → j ≠ k →
  fixIndex len (f0 + j) ≠ fixIndex len (f0 + k).
Proof.
  intros Hf Hj Hk Hne. unfold fixIndex.
  destruct (Z.geb_spec (f0 + j) len), (Z.geb_spec (f0 + k) len);
    repeat match goal with
           | |- context [?a <? ?b] => destruct (Z.ltb_spec a b)
           end; lia.
Qed.

Lemma fixIndex_pred_succ len f0 k :
  0 <= f0 < len → 0 <= k < len →
  fixIndex len (fixIndex len (f0 - 1) + (k + 1)) = fixIndex len (f0 + k).
Proof.
  intros Hf Hk. unfold fixIndex.
  repeat match goal with
         | |- context [?a >=? ?b] => destruct (Z.geb_spec a b)
         | |- context [?a <? ?b] => destruct (Z.ltb_spec a b)
         end; lia.
Qed.

Lemma fixIndex_succ_front len f0 k :
  0 <= f0 < len → 0 <= k < len →
  fixIndex len ((if f0 + 1 =? len then 0 else f0 + 1) + k) = fixIndex len (f0 + (k + 1)).
Proof.
  intros Hf Hk. unfold fixIndex.
  repeat match goal with
         | |- context [?a >=? ?b] => destruct (Z.geb_spec a b)
         | |- context [?a <? ?b] => destruct (Z.ltb_spec a b)
         | |- context [?a =? ?b] => destruct (Z.eqb_spec a b)
         end; lia.
Qed.

(** ** Growth arithmetic *)

Lemma ceil_grows {R : Rounding} (cap : Z) (q : Q) :
  1 <= cap → (1.1 <= q)%Q → cap < Qceiling (rnd (inject_Z cap * q)).
Proof.
  intros Hcap Hq.
  assert (Hpos : (0 < inject_Z cap)%Q) by (unfold Qlt, inject_Z; simpl; lia).
  assert (Hprod : (inject_Z cap * 1.1 <= inject_Z cap * q)%Q)
    by (apply Qmult_le_l; done).
  assert (Hnn : (1 <= inject_Z cap * q)%Q).
  { apply Qmult_le_1_compat.
    - change 1%Q with (inject_Z 1). by rewrite <- Zle_Qle.
    - apply Qle_trans with (y := 1.1%Q); [done|exact Hq]. }
  destruct (rnd_accurate _ Hnn) as [Hlow _].
  rewrite Zlt_Qlt.
  apply Qlt_le_trans with (y := rnd (inject_Z cap * q)); [|apply Qle_ceiling].
  apply Qlt_le_trans with (y := (inject_Z cap * q * (1 - unit_roundoff))%Q); [|done].
  apply Qlt_le_trans with (y := (inject_Z cap * 1.1 * (1 - unit_roundoff))%Q).
  - unfold Qlt, Qmult, Qminus, Qplus, Qopp, inject_Z, unit_roundoff. simpl. lia.
  - apply Qmult_le_compat_r; [done|]. done.
Qed.

Section Traversal.

Context {R : Rounding} {T C : Type}.

(** The traversal as a loop rule: an invariant [I k] that holds after [k]
    turns, kept by the callback at the slot [k] steps from the front, holds
    for [n] turns when the loop is left, and the fuel given to the loop is
    enough for it to be left. *)
Lemma traverse_loop_inv (callback : TraverseCallback (T:=T) C)
    (I : Z → C * SlimDeque T → Prop) (f0 n len : Z) :
  0 <= f0 < len → n <= len →
  (∀ k w, I k w → _size (snd w) = n ∧ buffer_length (snd w) = len) →
  (∀ k w, 0 <= k < n → I k w → I (k + 1) (callback (fixIndex len (f0 + k)) w)) →
  ∀ fuel k w, 0 <= k <= n → n - k <= Z.of_nat fuel → I k w →
    ∃ w', traverse_loop fuel callback k (fixIndex len (f0 + k)) w = Some w' ∧ I n w'.
Proof.
  intros Hf Hn Hframe Hstep fuel.
  induction fuel as [|fuel IH]; intros k w Hk Hfuel HI; simpl.
  - destruct (Hframe _ _ HI) as [Hsz _]. rewrite Hsz.
    destruct (Z.ltb_spec k n); [lia|].
    exists w. replace n with k by lia. done.
  - destruct (Hframe _ _ HI) as [Hsz _]. rewrite Hsz.
    destruct (Z.ltb_spec k n).
    + pose proof (Hstep k w ltac:(lia) HI) as HI'.
      destruct (Hframe _ _ HI') as [_ Hlen]. rewrite Hlen.
      rewrite fixIndex_step by lia.
      apply IH; [lia|lia|done].
    + exists w. replace n with k by lia. done.
Qed.

End Traversal.

(** ** The occupied region *)

Section Slots.

Context {R : Rounding} {T : Type}.
Implicit Types (this d : SlimDeque T).

Lemma slots_length d : length (slots d) = Z.to_nat (_size d).
Proof. unfold slots. rewrite length_fmap, length_seq. done. Qed.

Lemma slots_lookup d (j : nat) :
  Z.of_nat j < _size d → slots d !! j = Some (slot d j).
Proof.
  intros Hj. unfold slots.
  rewrite list_lookup_fmap, lookup_seq_lt by lia. done.
Qed.

(** An array that agrees with the occupied region slot by slot is it. *)
Lemma slots_unique d (a : list (option T)) :
  length a = Z.to_nat (_size d) →
  (∀ j : nat, Z.of_nat j < _size d → a !! j = Some (slot d j)) →
  a = slots d.
Proof.
  intros Hlen Ha. apply list_eq. intros j.
  destruct (decide (Z.of_nat j < _size d)) as [Hj|Hj].
  - rewrite slots_lookup by done. auto.
  - rewrite !lookup_ge_None_2; [done| |]; rewrite ?slots_length; lia.
Qed.

(** Two objects whose occupied slots agree position by position. *)
Lemma slots_ext d d' :
  _size d' = _size d →
  (∀ j : nat, Z.of_nat j < _size d → slot d' j = slot d j) →
  slots d' = slots d.
Proof.
  intros Hsz Hslot. apply slots_unique.
  - rewrite slots_length. lia.
  - intros j Hj. rewrite slots_lookup by lia. f_equal. auto.
Qed.

Lemma slots_snoc d d' :
  0 <= _size d → _size d' = _size d + 1 →
  (∀ j : nat, Z.of_nat j < _size d → slot d' j = slot d j) →
  slots d' = slots d ++ [slot d' (Z.to_nat (_size d))].
Proof.
  intros Hnn Hsz Hslot. unfold slots at 1.
  replace (Z.to_nat (_size d')) with (S (Z.to_nat (_size d))) by lia.
  rewrite seq_S, fmap_app. simpl. f_equal.
  apply list_eq. intros j.
  destruct (decide (Z.of_nat j < _size d)) as [Hj|Hj].
  - rewrite slots_lookup, list_lookup_fmap, lookup_seq_lt by lia.
    simpl. f_equal. auto.
  - rewrite !lookup_ge_None_2; [done| |];
      rewrite ?slots_length, ?length_fmap, ?length_seq; lia.
Qed.

Lemma slots_cons d d' :
  0 <= _size d → _size d' = _size d + 1 →
  (∀ j : nat, Z.of_nat j < _size d → slot d' (S j) = slot d j) →
  slots d' = slot d' 0%nat :: slots d.
Proof.
  intros Hnn Hsz Hslot. unfold slots at 1.
  replace (Z.to_nat (_size d')) with (S (Z.to_nat (_size d))) by lia.
  simpl. f_equal. rewrite <- fmap_S_seq, <- list_fmap_compose.
  apply list_eq. intros j.
  destruct (decide (Z.of_nat j < _size d)) as [Hj|Hj].
  - rewrite slots_lookup, list_lookup_fmap, lookup_seq_lt by lia.
    simpl. f_equal. auto.
  - rewrite !lookup_ge_None_2; [done| |];
      rewrite ?slots_length, ?length_fmap, ?length_seq; lia.
Qed.

End Slots.

(** ** The snapshot *)

Section Snapshot.

Context {R : Rounding} {T : Type}.
Implicit Types (this d : SlimDeque T).

(** On every well-formed object [getSnapshot] returns, leaves the object as
    it is, and yields the occupied region front to back. *)
Lemma getSnapshot_spec d : Inv d → getSnapshot d = (Return (slots d), d).
Proof.
  intros [Hfront Hsize]. unfold getSnapshot.
  rewrite Array_new_of_Z by lia.
  unfold _traverseFromFrontToBack. cbn [snd fst].
  set (callback := fun (currentIndex : Z) (w : list (option T) * Z * SlimDeque T) => _).
  pose (I := fun (k : Z) (w : list (option T) * Z * SlimDeque T) =>
    snd w = d ∧ snd (fst w) = k ∧ length (fst (fst w)) = Z.to_nat (_size d) ∧
    ∀ j : nat, Z.of_nat j < k → fst (fst w) !! j = Some (slot d j)).
  destruct (traverse_loop_inv callback I (_frontIndex d) (_size d) (buffer_length d))
    with (fuel := Z.to_nat (_size d)) (k := 0)
         (w := (replicate (Z.to_nat (_size d)) (@None T), 0, d))
    as ([[a i] d'] & Hrun & Hd & _ & Hlen & Ha); try lia.
  - intros k w (-> & _). done.
  - intros k [[a i] d'] Hk (Hd & Hi & Hlen & Ha). cbn [fst snd] in *. subst d' i.
    unfold I, callback; cbn [fst snd].
    repeat split; [rewrite array_set_length; lia|].
    intros j Hj. rewrite array_set_in_range by lia.
    destruct (decide (j = Z.to_nat k)) as [->|Hne].
    + rewrite list_lookup_insert_eq by lia. unfold slot. repeat f_equal. lia.
    + rewrite list_lookup_insert_ne by lia. apply Ha. lia.
  - unfold I; cbn [fst snd].
    repeat split; [by rewrite length_replicate|]. intros j Hj. lia.
  - rewrite Z.add_0_r, fixIndex_small in Hrun by lia. rewrite Hrun.
    cbn [fst snd] in *. subst d'. f_equal. f_equal. by apply slots_unique.
Qed.

End Snapshot.

(** ** Growth *)

Section Growth.

Context {R : Rounding} {T : Type}.
Implicit Types (this d : SlimDeque T).

Lemma not_full_no_growth d :
  _size d < buffer_length d → _increaseCapacityIfNecessary d = (Return tt, d).
Proof.
  intros Hlt. unfold _increaseCapacityIfNecessary.
  destruct (Z.ltb_spec (_size d) (buffer_length d)); [done|lia].
Qed.

Lemma full_growth d q :
  Inv d → _size d = buffer_length d →
  _capacityIncrementFactor d = Finite q → (1.1 <= q)%Q →
  _increaseCapacityIfNecessary d = (Return tt, grown d q).
Proof.
  intros [Hfront Hsize] Hfull Hq Hge.
  pose proof (ceil_grows (buffer_length d) q ltac:(lia) Hge) as Hgrow.
  fold (grownCapacity d q) in Hgrow.
  unfold _increaseCapacityIfNecessary.
  destruct (Z.ltb_spec (_size d) (buffer_length d)); [lia|].
  rewrite Hq. cbn [num_mul of_Z Math_ceil]. fold (grownCapacity d q).
  fold (of_Z (grownCapacity d q)). rewrite Array_new_of_Z by lia.
  unfold Array_fill. rewrite length_replicate.
  unfold _traverseFromFrontToBack. cbn [snd fst].
  set (N := Z.to_nat (grownCapacity d q)).
  set (callback := fun (currentIndex : Z) (w : list (option T) * Z * SlimDeque T) => _).
  pose (I := fun (k : Z) (w : list (option T) * Z * SlimDeque T) =>
    snd (fst w) = k ∧ length (fst (fst w)) = N ∧
    (∀ j : nat, Z.of_nat j < k → fst (fst w) !! j = Some (slot d j)) ∧
    (∀ j : nat, k <= Z.of_nat j → (j < N)%nat → fst (fst w) !! j = Some None) ∧
    _frontIndex (snd w) = _frontIndex d ∧ _size (snd w) = _size d ∧
    _numberOfCapacityIncrements (snd w) = _numberOfCapacityIncrements d ∧
    _capacityIncrementFactor (snd w) = _capacityIncrementFactor d ∧
    buffer_length (snd w) = buffer_length d ∧
    (∀ j : nat, k <= Z.of_nat j < _size d → slot (snd w) j = slot d j)).
  destruct (traverse_loop_inv callback I (_frontIndex d) (_size d) (buffer_length d))
    with (fuel := Z.to_nat (_size d)) (k := 0) (w := (replicate N (@None T), 0, d))
    as ([[a i] d'] & Hrun & _ & Hlen & Hlow & Hhigh & Hf & Hs & Hc & Hfac & _ & _);
    try lia.
  - intros k w (_ & _ & _ & _ & _ & Hs & _ & _ & Hl & _). done.
  - intros k [[a i] d'] Hk (Hi & Hlen & Hlow & Hhigh & Hf & Hs & Hc & Hfac & Hl & Hrest).
    cbn [fst snd] in *. subst i.
    assert (Hidx : 0 <= fixIndex (buffer_length d) (_frontIndex d + k) < buffer_length d)
      by (apply fixIndex_range; lia).
    unfold I, callback; cbn [fst snd].
    repeat split; try done.
    + rewrite array_set_length; lia.
    + intros j Hj. rewrite array_set_in_range by lia.
      destruct (decide (j = Z.to_nat k)) as [->|Hne].
      * rewrite list_lookup_insert_eq by lia. f_equal.
        rewrite <- (Hrest (Z.to_nat k)) by lia. unfold slot.
        rewrite Hl, Hf. repeat f_equal. lia.
      * rewrite list_lookup_insert_ne by lia. apply Hlow. lia.
    + intros j Hj HjN. rewrite array_set_in_range by lia.
      rewrite list_lookup_insert_ne by lia. apply Hhigh; lia.
    + unfold buffer_length in *. cbn. rewrite array_set_length; lia.
    + intros j Hj. rewrite <- (Hrest j) by lia. unfold slot, buffer_length in *. cbn.
      rewrite array_set_length by lia. rewrite Hf.
      apply array_get_set_ne; [lia| |].
      * rewrite Hl. apply fixIndex_range; lia.
      * rewrite Hl. apply fixIndex_inj; lia.
  - unfold I; cbn [fst snd]. repeat split; try done.
    + by rewrite length_replicate.
    + intros j Hj. lia.
    + intros j _ Hj. by apply lookup_replicate_2.
  - rewrite Z.add_0_r, fixIndex_small in Hrun by lia. rewrite Hrun.
    cbn [fst snd] in *. f_equal.
    unfold set_numberOfCapacityIncrements, set_cyclicBuffer, set_frontIndex, grown.
    cbn. rewrite Hs, Hc, Hfac. f_equal.
    apply list_eq. intros j.
    destruct (decide (Z.of_nat j < _size d)) as [Hj|Hj].
    + rewrite lookup_app_l by (rewrite slots_length; lia).
      rewrite slots_lookup by done. auto.
    + rewrite lookup_app_r by (rewrite slots_length; lia).
      rewrite slots_length. fold N.
      destruct (decide (j < N)%nat) as [HjN|HjN].
      * rewrite lookup_replicate_2 by lia. apply Hhigh; lia.
      * rewrite !lookup_ge_None_2; [done| |]; rewrite ?length_replicate; lia.
Qed.

(** A factor that is not a number gives no capacity to allocate: the push
    that needs room fails in [new Array] before anything is written. *)
Lemma full_growth_NaN d :
  buffer_length d <= _size d → _capacityIncrementFactor d = NaN →
  _increaseCapacityIfNecessary d = (Throw RangeError, d).
Proof.
  intros Hfull Hq. unfold _increaseCapacityIfNecessary.
  destruct (Z.ltb_spec (_size d) (buffer_length d)); [lia|].
  rewrite Hq. done.
Qed.

Lemma grown_Inv d q :
  Inv d → _size d = buffer_length d → (1.1 <= q)%Q →
  Inv (grown d q) ∧ _size (grown d q) < buffer_length (grown d q) ∧
  buffer_length (grown d q) = grownCapacity d q.
Proof.
  intros [Hfront Hsize] Hfull Hge.
  pose proof (ceil_grows (buffer_length d) q ltac:(lia) Hge) as Hgrow.
  fold (grownCapacity d q) in Hgrow.
  assert (Hlen : buffer_length (grown d q) = grownCapacity d q).
  { unfold buffer_length at 1, grown. cbn.
    rewrite length_app, slots_length, length_replicate. lia. }
  unfold Inv. rewrite Hlen. cbn. lia.
Qed.

Lemma grown_slot d q (j : nat) :
  Inv d → _size d = buffer_length d → (1.1 <= q)%Q →
  Z.of_nat j < _size d → slot (grown d q) j = slot d j.
Proof.
  intros HInv Hfull Hge Hj.
  destruct (grown_Inv d q HInv Hfull Hge) as (_ & Hlt & _).
  unfold slot at 1. rewrite fixIndex_small by (cbn in *; lia).
  rewrite array_get_lookup by (cbn; lia). cbn.
  rewrite lookup_app_l by (rewrite slots_length; lia).
  replace (Z.to_nat (0 + Z.of_nat j)) with j by lia.
  rewrite slots_lookup by done. done.
Qed.

Lemma grown_slots d q :
  Inv d → _size d = buffer_length d → (1.1 <= q)%Q →
  slots (grown d q) = slots d.
Proof.
  intros HInv Hfull Hge. apply slots_ext; [done|].
  intros j Hj. by apply grown_slot.
Qed.

End Growth.

(** ** The operations as state transformers *)

Section Operations.

Context {R : Rounding} {T : Type}.
Implicit Types (this d : SlimDeque T) (item : T).

Lemma _fixIndexIfNecessary_eq d c :
  _fixIndexIfNecessary c d = (Return (fixIndex (buffer_length d) c), d).
Proof.
  unfold _fixIndexIfNecessary, fixIndex, bind, read, ret.
  destruct (c >=? buffer_length d); [done|]. destruct (c <? 0); done.
Qed.


Lemma pushBack_eq item d :
  pushBack item d =
  match _increaseCapacityIfNecessary d with
  | (Return _, d1) => (Return tt, pushedBack item d1)
  | (Throw e, d1) => (Throw e, d1)
  | (OutOfFuel, d1) => (OutOfFuel, d1)
  end.
Proof.
  unfold pushBack, bind at 1.
  destruct (_increaseCapacityIfNecessary d) as [[[]|e|] d1]; try done.
  unfold _calculateNewBackIndex, bind, read, modify.
  cbn -[_fixIndexIfNecessary]. rewrite _fixIndexIfNecessary_eq. done.
Qed.

Lemma pushFront_eq item d :
  pushFront item d =
  match _increaseCapacityIfNecessary d with
  | (Return _, d1) => (Return tt, pushedFront item d1)
  | (Throw e, d1) => (Throw e, d1)
  | (OutOfFuel, d1) => (OutOfFuel, d1)
  end.
Proof.
  unfold pushFront, bind at 1.
  destruct (_increaseCapacityIfNecessary d) as [[[]|e|] d1]; try done.
  unfold _calculateNewFrontIndex, bind, read, modify.
  cbn -[_fixIndexIfNecessary]. rewrite _fixIndexIfNecessary_eq. done.
Qed.

Lemma empty_throws d :
  _size d = 0 →
  front d = (Throw EmptyCollection, d) ∧ back d = (Throw EmptyCollection, d) ∧
  popFront d = (Throw EmptyCollection, d) ∧ popBack d = (Throw EmptyCollection, d).
Proof.
  intros Hz. unfold front, back, popFront, popBack, bind, read, throw. cbn.
  rewrite Hz. done.
Qed.

Lemma front_eq d :
  _size d ≠ 0 → front d = (Return (array_get (_cyclicBuffer d) (_frontIndex d)), d).
Proof.
  intros Hz. unfold front, bind, read, ret. cbn.
  destruct (Z.eqb_spec (_size d) 0); done.
Qed.

Lemma back_eq d :
  _size d ≠ 0 →
  back d = (Return (array_get (_cyclicBuffer d)
                      (fixIndex (buffer_length d) (_frontIndex d + _size d - 1))), d).
Proof.
  intros Hz. unfold back, bind at 1, read at 1. cbn -[_fixIndexIfNecessary].
  destruct (Z.eqb_spec (_size d) 0); [done|].
  unfold _calculateCurrentBackIndex, bind, read.
  cbn -[_fixIndexIfNecessary]. rewrite _fixIndexIfNecessary_eq. done.
Qed.

Lemma popFront_eq d :
  _size d ≠ 0 →
  popFront d = (Return (array_get (_cyclicBuffer d) (_frontIndex d)), poppedFront d).
Proof.
  intros Hz. unfold popFront, bind at 1, read at 1. cbn.
  destruct (Z.eqb_spec (_size d) 0); [done|].
  unfold bind, read, modify, ret, poppedFront, buffer_length. cbn.
  destruct (_frontIndex d + 1 =? _); done.
Qed.

Lemma popBack_eq d :
  _size d ≠ 0 →
  popBack d =
  (Return (array_get (_cyclicBuffer d)
             (fixIndex (buffer_length d) (_frontIndex d + _size d - 1))),
   poppedBack d).
Proof.
  intros Hz. unfold popBack, bind at 1, read at 1. cbn -[_fixIndexIfNecessary].
  destruct (Z.eqb_spec (_size d) 0); [done|].
  unfold _calculateCurrentBackIndex, bind, read, modify, ret.
  cbn -[_fixIndexIfNecessary]. rewrite _fixIndexIfNecessary_eq. done.
Qed.

End Operations.

(** ** What each step does to the occupied region *)

Section Steps.

Local Ltac blia := unfold buffer_length in *; lia.

Context {R : Rounding} {T : Type}.
Implicit Types (this d : SlimDeque T) (item : T).

Lemma fixIndex_pred_ne len f0 j :
  0 <= f0 < len → 0 <= j < len - 1 →
  fixIndex len (f0 - 1) ≠ fixIndex len (f0 + j).
Proof.
  intros Hf Hj. unfold fixIndex.
  repeat match goal with
         | |- context [?a >=? ?b] => destruct (Z.geb_spec a b)
         | |- context [?a <? ?b] => destruct (Z.ltb_spec a b)
         end; blia.
Qed.

Lemma pushedBack_length item d :
  Inv d → _size d < buffer_length d →
  buffer_length (pushedBack item d) = buffer_length d.
Proof.
  intros [Hfront Hsize] Hroom. unfold buffer_length at 1, pushedBack. cbn.
  rewrite array_set_length; [done|]. apply fixIndex_range; blia.
Qed.

Lemma pushedBack_Inv item d :
  Inv d → _size d < buffer_length d → Inv (pushedBack item d).
Proof.
  intros HInv Hroom. pose proof HInv as [Hfront Hsize].
  unfold Inv. rewrite pushedBack_length by done. cbn. blia.
Qed.

Lemma pushedBack_slots item d :
  Inv d → _size d < buffer_length d →
  slots (pushedBack item d) = slots d ++ [Some item].
Proof.
  intros HInv Hroom. pose proof HInv as [Hfront Hsize].
  assert (Hidx : 0 <= fixIndex (buffer_length d) (_frontIndex d + _size d)
                 < buffer_length d) by (apply fixIndex_range; blia).
  rewrite (slots_snoc d (pushedBack item d)); [|blia|done|].
  - f_equal. f_equal. unfold slot. rewrite pushedBack_length by done. cbn.
    replace (Z.of_nat (Z.to_nat (_size d))) with (_size d) by blia.
    apply array_get_set_eq. done.
  - intros j Hj. unfold slot. rewrite pushedBack_length by done. cbn.
    apply array_get_set_ne; [done| |].
    + apply fixIndex_range; blia.
    + apply fixIndex_inj; blia.
Qed.

Lemma pushedFront_length item d :
  Inv d → buffer_length (pushedFront item d) = buffer_length d.
Proof.
  intros [Hfront Hsize]. unfold buffer_length at 1, pushedFront. cbn.
  rewrite array_set_length; [done|]. apply fixIndex_range; blia.
Qed.

Lemma pushedFront_Inv item d :
  Inv d → _size d < buffer_length d → Inv (pushedFront item d).
Proof.
  intros HInv Hroom. pose proof HInv as [Hfront Hsize].
  unfold Inv. rewrite pushedFront_length by done. cbn.
  pose proof (fixIndex_range (buffer_length d) (_frontIndex d - 1)). blia.
Qed.

Lemma pushedFront_slots item d :
  Inv d → _size d < buffer_length d →
  slots (pushedFront item d) = Some item :: slots d.
Proof.
  intros HInv Hroom. pose proof HInv as [Hfront Hsize].
  assert (Hidx : 0 <= fixIndex (buffer_length d) (_frontIndex d - 1) < buffer_length d)
    by (apply fixIndex_range; blia).
  rewrite (slots_cons d (pushedFront item d)); [|blia|done|].
  - f_equal. unfold slot. rewrite pushedFront_length by done. cbn.
    rewrite Nat2Z.inj_0, Z.add_0_r, (fixIndex_small _ (fixIndex _ _)) by done.
    apply array_get_set_eq. done.
  - intros j Hj. unfold slot. rewrite pushedFront_length by done. cbn.
    replace (Z.of_nat (S j)) with (Z.of_nat j + 1) by blia.
    rewrite fixIndex_pred_succ by blia.
    apply array_get_set_ne; [done| |].
    + apply fixIndex_range; blia.
    + apply fixIndex_pred_ne; blia.
Qed.

Lemma poppedFront_length d :
  Inv d → buffer_length (poppedFront d) = buffer_length d.
Proof.
  intros [Hfront Hsize]. unfold buffer_length at 1, poppedFront. cbn.
  rewrite array_set_length; done.
Qed.

Lemma poppedFront_frontIndex d :
  Inv d →
  _frontIndex (poppedFront d) =
  if _frontIndex d + 1 =? buffer_length d then 0 else _frontIndex d + 1.
Proof.
  intros [Hfront Hsize]. unfold poppedFront. cbn.
  rewrite array_set_length; done.
Qed.

Lemma poppedFront_Inv d : Inv d → _size d ≠ 0 → Inv (poppedFront d).
Proof.
  intros HInv Hne. pose proof HInv as [Hfront Hsize].
  unfold Inv. rewrite poppedFront_length, poppedFront_frontIndex by done. cbn.
  destruct (Z.eqb_spec (_frontIndex d + 1) (buffer_length d)); blia.
Qed.

Lemma poppedFront_slots d :
  Inv d → _size d ≠ 0 →
  slots d = array_get (_cyclicBuffer d) (_frontIndex d) :: slots (poppedFront d).
Proof.
  intros HInv Hne. pose proof HInv as [Hfront Hsize].
  rewrite (slots_cons (poppedFront d) d); [|cbn; blia|cbn; blia|].
  - f_equal. unfold slot. rewrite Nat2Z.inj_0, Z.add_0_r, fixIndex_small by done. done.
  - intros j Hj. cbn in Hj. unfold slot.
    rewrite poppedFront_length, poppedFront_frontIndex by done.
    rewrite fixIndex_succ_front by blia. cbn.
    replace (Z.of_nat (S j)) with (Z.of_nat j + 1) by blia.
    symmetry. apply array_get_set_ne; [done| |].
    + apply fixIndex_range; blia.
    + rewrite <- (fixIndex_small (buffer_length d) (_frontIndex d)) at 1 by done.
      rewrite <- (Z.add_0_r (_frontIndex d)) at 1.
      apply fixIndex_inj; blia.
Qed.

Lemma poppedBack_length d :
  Inv d → _size d ≠ 0 → buffer_length (poppedBack d) = buffer_length d.
Proof.
  intros [Hfront Hsize] Hne. unfold buffer_length at 1, poppedBack. cbn.
  rewrite array_set_length; [done|]. apply fixIndex_range; blia.
Qed.

Lemma poppedBack_Inv d : Inv d → _size d ≠ 0 → Inv (poppedBack d).
Proof.
  intros HInv Hne. pose proof HInv as [Hfront Hsize].
  unfold Inv. rewrite poppedBack_length by done. cbn. blia.
Qed.

Lemma poppedBack_slots d :
  Inv d → _size d ≠ 0 →
  slots d =
  slots (poppedBack d) ++
  [array_get (_cyclicBuffer d)
     (fixIndex (buffer_length d) (_frontIndex d + _size d - 1))].
Proof.
  intros HInv Hne. pose proof HInv as [Hfront Hsize].
  rewrite (slots_snoc (poppedBack d) d); [|cbn; blia|cbn; blia|].
  - f_equal. f_equal. unfold slot. cbn. repeat f_equal. blia.
  - intros j Hj. cbn in Hj. unfold slot.
    rewrite poppedBack_length by done. cbn.
    symmetry. apply array_get_set_ne.
    + apply fixIndex_range; blia.
    + apply fixIndex_range; blia.
    + replace (_frontIndex d + _size d - 1) with (_frontIndex d + (_size d - 1)) by blia.
      apply fixIndex_inj; blia.
Qed.

End Steps.

(** ** The factor the constructor lets through *)

Lemma Qlt_bool_false x y : Qlt_bool x y = false ↔ (y <= x)%Q.
Proof.
  unfold Qlt_bool. rewrite Bool.negb_false_iff. apply Qle_bool_iff.
Qed.

Lemma Qlt_bool_true x y : Qlt_bool x y = true ↔ (x < y)%Q.
Proof.
  unfold Qlt_bool. rewrite Bool.negb_true_iff, <- Bool.not_true_iff_false, Qle_bool_iff.
  split; [apply Qnot_le_lt|apply Qlt_not_le].
Qed.

Lemma in_range_accepted factor : in_range factor → accepted factor.
Proof.
  intros (q & -> & Hlo & Hhi). unfold accepted, _validateCapacityIncrementFactor.
  cbn. apply Qlt_bool_false in Hlo, Hhi. rewrite Hlo, Hhi. done.
Qed.

(** The two comparisons of the validation are both false on NaN: besides the
    factors of the range, NaN passes. *)
Lemma accepted_cases factor : accepted factor → factor = NaN ∨ in_range factor.
Proof.
  unfold accepted, _validateCapacityIncrementFactor. destruct factor as [| | |q]; cbn.
  - auto.
  - done.
  - done.
  - destruct (Qlt_bool q 1.1) eqn:Hlo; [done|].
    destruct (Qlt_bool 2 q) eqn:Hhi; [done|].
    intros _. right. exists q. rewrite Qlt_bool_false in Hlo, Hhi. done.
Qed.

Section Calls.

Context {R : Rounding} {T : Type}.
Implicit Types (this d : SlimDeque T) (item : T).

Local Ltac blia := unfold buffer_length in *; lia.

Lemma increase_cases d :
  Inv d → accepted (_capacityIncrementFactor d) →
  (_size d < buffer_length d ∧ _increaseCapacityIfNecessary d = (Return tt, d)) ∨
  (_size d = buffer_length d ∧
   ∃ q, _capacityIncrementFactor d = Finite q ∧ (1.1 <= q)%Q ∧
        _increaseCapacityIfNecessary d = (Return tt, grown d q)) ∨
  (_size d = buffer_length d ∧ _capacityIncrementFactor d = NaN ∧
   _increaseCapacityIfNecessary d = (Throw RangeError, d)).
Proof.
  intros HInv Hacc. pose proof HInv as [Hfront Hsize].
  destruct (decide (_size d < buffer_length d)) as [Hroom|Hfull].
  - left. split; [done|]. by apply not_full_no_growth.
  - right. assert (Heq : _size d = buffer_length d) by lia.
    destruct (accepted_cases _ Hacc) as [Hnan|(q & Hq & Hlo & Hhi)].
    + right. repeat split; try done. apply full_growth_NaN; [lia|done].
    + left. split; [done|]. exists q. repeat split; try done.
      by apply full_growth.
Qed.

(** Everything a push does, in one statement: the indices stay within the
    buffer, the factor is kept, the capacity does not shrink; and with a
    factor of the range the push returns and adds its item at its end. *)
Lemma pushBack_cases item d :
  Inv d → accepted (_capacityIncrementFactor d) →
  let d' := exec (pushBack item) d in
  Inv d' ∧ _capacityIncrementFactor d' = _capacityIncrementFactor d ∧
  buffer_length d <= buffer_length d' ∧
  (in_range (_capacityIncrementFactor d) →
   pushBack item d = (Return tt, d') ∧ _size d' = _size d + 1 ∧
   slots d' = slots d ++ [Some item]).
Proof.
  intros HInv Hacc d'. subst d'. unfold exec. rewrite pushBack_eq.
  destruct (increase_cases d HInv Hacc)
    as [[Hroom ->]|[(Hfull & q & Hq & Hlo & ->)|(Hfull & Hnan & ->)]]; cbn [snd].
  - repeat split; try apply pushedBack_Inv; try done.
    + rewrite pushedBack_length by done. lia.
    + by apply pushedBack_slots.
  - destruct (grown_Inv d q HInv Hfull Hlo) as (HInv' & Hroom & Hlen).
    pose proof (ceil_grows (buffer_length d) q ltac:(unfold Inv in *; lia) Hlo) as Hgrow.
    fold (grownCapacity d q) in Hgrow.
    repeat split; try apply pushedBack_Inv; try done.
    + rewrite pushedBack_length by done. lia.
    + rewrite pushedBack_slots, grown_slots by done. done.
  - split; [done|]. split; [done|]. split; [lia|].
    intros (q & Hq & _). congruence.
Qed.

Lemma pushFront_cases item d :
  Inv d → accepted (_capacityIncrementFactor d) →
  let d' := exec (pushFront item) d in
  Inv d' ∧ _capacityIncrementFactor d' = _capacityIncrementFactor d ∧
  buffer_length d <= buffer_length d' ∧
  (in_range (_capacityIncrementFactor d) →
   pushFront item d = (Return tt, d') ∧ _size d' = _size d + 1 ∧
   slots d' = Some item :: slots d).
Proof.
  intros HInv Hacc d'. subst d'. unfold exec. rewrite pushFront_eq.
  destruct (increase_cases d HInv Hacc)
    as [[Hroom ->]|[(Hfull & q & Hq & Hlo & ->)|(Hfull & Hnan & ->)]]; cbn [snd].
  - repeat split; try apply pushedFront_Inv; try done.
    + rewrite pushedFront_length by done. lia.
    + by apply pushedFront_slots.
  - destruct (grown_Inv d q HInv Hfull Hlo) as (HInv' & Hroom & Hlen).
    pose proof (ceil_grows (buffer_length d) q ltac:(unfold Inv in *; lia) Hlo) as Hgrow.
    fold (grownCapacity d q) in Hgrow.
    repeat split; try apply pushedFront_Inv; try done.
    + rewrite pushedFront_length by done. lia.
    + rewrite pushedFront_slots, grown_slots by done. done.
  - split; [done|]. split; [done|]. split; [lia|].
    intros (q & Hq & _). congruence.
Qed.

Lemma popFront_cases d :
  Inv d →
  let d' := exec popFront d in
  Inv d' ∧ _capacityIncrementFactor d' = _capacityIncrementFactor d ∧
  buffer_length d' = buffer_length d ∧
  _numberOfCapacityIncrements d' = _numberOfCapacityIncrements d ∧
  (_size d ≠ 0 →
   ∃ r, popFront d = (Return r, d') ∧ _size d' = _size d - 1 ∧ slots d = r :: slots d').
Proof.
  intros HInv d'. subst d'. unfold exec.
  destruct (decide (_size d = 0)) as [Hz|Hnz].
  - destruct (empty_throws d Hz) as (_ & _ & -> & _). cbn [snd]. done.
  - rewrite popFront_eq by done. cbn [snd].
    repeat split; try apply poppedFront_Inv; try done.
    + by apply poppedFront_length.
    + intros _. eexists. repeat split. by apply poppedFront_slots.
Qed.

Lemma popBack_cases d :
  Inv d →
  let d' := exec popBack d in
  Inv d' ∧ _capacityIncrementFactor d' = _capacityIncrementFactor d ∧
  buffer_length d' = buffer_length d ∧
  _numberOfCapacityIncrements d' = _numberOfCapacityIncrements d ∧
  (_size d ≠ 0 →
   ∃ r, popBack d = (Return r, d') ∧ _size d' = _size d - 1 ∧ slots d = slots d' ++ [r]).
Proof.
  intros HInv d'. subst d'. unfold exec.
  destruct (decide (_size d = 0)) as [Hz|Hnz].
  - destruct (empty_throws d Hz) as (_ & _ & _ & ->). cbn [snd]. done.
  - rewrite popBack_eq by done. cbn [snd].
    repeat split; try apply poppedBack_Inv; try done.
    + by apply poppedBack_length.
    + intros _. eexists. repeat split. by apply poppedBack_slots.
Qed.

Lemma front_state d : exec front d = d.
Proof.
  unfold exec, front, bind, read, throw, ret. cbn. destruct (_size d =? 0); done.
Qed.

Lemma back_state d : exec back d = d.
Proof.
  destruct (decide (_size d = 0)) as [Hz|Hnz]; unfold exec.
  - destruct (empty_throws d Hz) as (_ & -> & _). done.
  - rewrite back_eq by done. done.
Qed.

End Calls.

(** ** Clearing *)

Section Clearing.

Context {R : Rounding} {T : Type}.
Implicit Types (this d : SlimDeque T).

Lemma popFront_times_facts (n : nat) d :
  Inv d → Z.of_nat n <= _size d →
  let d' := popFront_times n d in
  Inv d' ∧ _size d' = _size d - Z.of_nat n ∧
  buffer_length d' = buffer_length d ∧
  _numberOfCapacityIncrements d' = _numberOfCapacityIncrements d ∧
  _capacityIncrementFactor d' = _capacityIncrementFactor d.
Proof.
  revert d. induction n as [|n IH]; intros d HInv Hn; cbn [popFront_times].
  - repeat split; try apply HInv; try done. lia.
  - destruct (popFront_cases d HInv) as (HInv' & Hfac & Hlen & Hcnt & Hpop).
    destruct Hpop as (r & _ & Hsz & _); [lia|].
    destruct (IH (exec popFront d) HInv' ltac:(lia)) as (HInv'' & ? & ? & ? & ?).
    split; [done|]. repeat split; try congruence. lia.
Qed.

Lemma clear_loop_spec (fuel : nat) d :
  Inv d → _size d <= Z.of_nat fuel →
  clear_loop fuel d = (Return tt, popFront_times (Z.to_nat (_size d)) d).
Proof.
  revert d. induction fuel as [|fuel IH]; intros d HInv Hfuel;
    pose proof HInv as [_ Hsize].
  - cbn. unfold bind, isEmpty, read, ret.
    destruct (Z.eqb_spec (_size d) 0) as [Hz|Hnz]; [|lia].
    rewrite Hz. done.
  - cbn [clear_loop]. unfold bind at 1, isEmpty, read.
    destruct (Z.eqb_spec (_size d) 0) as [Hz|Hnz]; cbn [negb].
    + rewrite Hz. done.
    + destruct (popFront_cases d HInv) as (HInv' & _ & _ & _ & Hpop).
      destruct (Hpop Hnz) as (r & Hcall & Hsz & _).
      unfold bind. rewrite Hcall, IH by (done || lia).
      replace (Z.to_nat (_size d)) with (S (Z.to_nat (_size (exec popFront d)))) by lia.
      done.
Qed.

Lemma clear_eq d :
  Inv d → clear d = (Return tt, popFront_until_empty_then_reset d).
Proof.
  intros HInv. unfold clear, bind at 1, size, read.
  unfold bind. rewrite clear_loop_spec by (done || lia). done.
Qed.

Lemma cleared_facts d :
  Inv d →
  let d' := exec clear d in
  Inv d' ∧ _size d' = 0 ∧ _frontIndex d' = 0 ∧
  buffer_length d' = buffer_length d ∧
  _numberOfCapacityIncrements d' = _numberOfCapacityIncrements d ∧
  _capacityIncrementFactor d' = _capacityIncrementFactor d.
Proof.
  intros HInv d'. subst d'. unfold exec. rewrite clear_eq by done. cbn [snd].
  pose proof HInv as [Hfront Hsize].
  destruct (popFront_times_facts (Z.to_nat (_size d)) d HInv ltac:(lia))
    as ([Hf Hs] & Hsz & Hlen & Hcnt & Hfac).
  unfold popFront_until_empty_then_reset, Inv, buffer_length in *. cbn.
  repeat split; try lia; done.
Qed.

End Clearing.

(** ** Construction *)

Section Construction.

Context {R : Rounding} {T : Type}.
Implicit Types (this d : SlimDeque T).

Lemma isNaturalNumber_Finite q :
  isNaturalNumber (Finite q) = true ↔ 1 <= Qfloor q ∧ (q == inject_Z (Qfloor q))%Q.
Proof.
  unfold isNaturalNumber. cbn. rewrite Bool.andb_true_iff, Bool.negb_true_iff.
  rewrite Qlt_bool_false, Qeq_bool_iff.
  change 1%Q with (inject_Z 1). rewrite <- Zle_Qle.
  split; intros [? ?]; split; try done; by symmetry.
Qed.

(** A construction that returns: the capacity asked for is a positive integer
    [n], the validation let the factor through, and the object is empty, with
    [n] cleared slots and its front at index 0. *)
Lemma constructor_Return initialCapacity factor d :
  constructor initialCapacity factor = Return d →
  ∃ n : Z, is_positive_integer initialCapacity n ∧ accepted factor ∧
           d = mkSlimDeque (replicate (Z.to_nat n) None) 0 0 0 factor.
Proof.
  unfold constructor.
  destruct (isNaturalNumber initialCapacity) eqn:Hnat; cbn [negb]; [|done].
  destruct (_validateCapacityIncrementFactor factor) as [[]|e|] eqn:Hval; try done.
  destruct initialCapacity as [| | |q]; try done.
  apply isNaturalNumber_Finite in Hnat as [Hge Heq].
  unfold Array_new.
  replace (Qle_bool 0 q) with true.
  2:{ symmetry. apply Qle_bool_iff. rewrite Heq.
      change 0%Q with (inject_Z 0). rewrite <- Zle_Qle. lia. }
  replace (Qeq_bool (inject_Z (Qfloor q)) q) with true.
  2:{ symmetry. apply Qeq_bool_iff. by symmetry. }
  cbn [andb]. unfold Array_fill. rewrite length_replicate.
  intros [= <-]. exists (Qfloor q). repeat split; try done. by exists q.
Qed.

Lemma constructor_Inv initialCapacity factor d :
  constructor initialCapacity factor = Return d →
  Inv d ∧ accepted (_capacityIncrementFactor d) ∧ Rep d [] ∧
  _capacityIncrementFactor d = factor.
Proof.
  intros Hnew. apply constructor_Return in Hnew as (n & [Hn _] & Hacc & ->).
  assert (HInv : Inv (mkSlimDeque (replicate (Z.to_nat n) (@None T)) 0 0 0 factor)).
  { unfold Inv, buffer_length. cbn. rewrite length_replicate. lia. }
  repeat split; try done; apply HInv.
Qed.

End Construction.

(** ** Sequences of calls *)

Section Runs.

Context {R : Rounding} {T : Type}.
Implicit Types (this d : SlimDeque T) (l : list T) (op : Op T) (ops : list (Op T)).

Lemma run_app ops1 ops2 d : run (ops1 ++ ops2) d = run ops2 (run ops1 d).
Proof. unfold run. apply fold_left_app. Qed.

Lemma ref_run_app ops1 ops2 l : ref_run (ops1 ++ ops2) l = ref_run ops2 (ref_run ops1 l).
Proof. unfold ref_run. apply fold_left_app. Qed.

Lemma getSnapshot_state d : Inv d → exec getSnapshot d = d.
Proof. intros HInv. unfold exec. by rewrite getSnapshot_spec. Qed.

(** One call keeps the indices within the buffer and the factor as it is, and
    does not shrink the buffer. *)
Lemma run_op_Inv op d :
  Inv d → accepted (_capacityIncrementFactor d) →
  Inv (run_op op d) ∧
  _capacityIncrementFactor (run_op op d) = _capacityIncrementFactor d ∧
  buffer_length d <= buffer_length (run_op op d).
Proof.
  intros HInv Hacc. destruct op as [item|item| | | | | |]; cbn [run_op].
  - destruct (pushFront_cases item d HInv Hacc) as (? & ? & ? & _). done.
  - destruct (pushBack_cases item d HInv Hacc) as (? & ? & ? & _). done.
  - destruct (popFront_cases d HInv) as (? & ? & ? & _).
    split; [done|]. split; [done|]. lia.
  - destruct (popBack_cases d HInv) as (? & ? & ? & _).
    split; [done|]. split; [done|]. lia.
  - destruct (cleared_facts d HInv) as (? & _ & _ & ? & _ & ?).
    split; [done|]. split; [done|]. lia.
  - rewrite getSnapshot_state by done. split; [done|]. split; [done|]. lia.
  - rewrite front_state. split; [done|]. split; [done|]. lia.
  - rewrite back_state. split; [done|]. split; [done|]. lia.
Qed.

Lemma run_Inv ops d :
  Inv d → accepted (_capacityIncrementFactor d) →
  Inv (run ops d) ∧
  _capacityIncrementFactor (run ops d) = _capacityIncrementFactor d ∧
  buffer_length d <= buffer_length (run ops d).
Proof.
  revert d. induction ops as [|op ops IH]; intros d HInv Hacc; cbn.
  - split; [done|]. split; [done|]. lia.
  - destruct (run_op_Inv op d HInv Hacc) as (HInv' & Hfac & Hlen).
    destruct (IH (run_op op d) HInv') as (? & ? & ?); [by rewrite Hfac|].
    fold (run ops (run_op op d)) in *.
    split; [done|]. split; [congruence|]. lia.
Qed.

Lemma Rep_size d l : Rep d l → _size d = Z.of_nat (length l).
Proof.
  intros [[_ Hsize] Hslots].
  apply (f_equal length) in Hslots. rewrite slots_length, length_fmap in Hslots. lia.
Qed.

(** One call on the object is the same call on the reference deque. *)
Lemma run_op_Rep op d l :
  Rep d l → in_range (_capacityIncrementFactor d) →
  Rep (run_op op d) (ref_op op l).
Proof.
  intros HRep Hin. pose proof HRep as [HInv Hslots].
  pose proof (in_range_accepted _ Hin) as Hacc.
  pose proof (Rep_size d l HRep) as Hsz.
  destruct (run_op_Inv op d HInv Hacc) as (HInv' & _).
  split; [done|].
  destruct op as [item|item| | | | | |]; cbn [run_op ref_op] in *.
  - destruct (pushFront_cases item d HInv Hacc) as (_ & _ & _ & Hpush).
    destruct (Hpush Hin) as (_ & _ & ->). rewrite Hslots. done.
  - destruct (pushBack_cases item d HInv Hacc) as (_ & _ & _ & Hpush).
    destruct (Hpush Hin) as (_ & _ & ->). rewrite Hslots, fmap_app. done.
  - destruct l as [|x l'].
    + destruct (empty_throws d Hsz) as (_ & _ & Hthrow & _).
      unfold exec. rewrite Hthrow. done.
    + destruct (popFront_cases d HInv) as (_ & _ & _ & _ & Hpop).
      destruct Hpop as (r & _ & _ & Heq); [cbn in Hsz; lia|].
      rewrite Heq in Hslots. by injection Hslots.
  - destruct l as [|x l' _] using rev_ind.
    + destruct (empty_throws d Hsz) as (_ & _ & _ & Hthrow).
      unfold exec. rewrite Hthrow. done.
    + destruct (popBack_cases d HInv) as (_ & _ & _ & _ & Hpop).
      destruct Hpop as (r & _ & _ & Heq); [rewrite length_app in Hsz; cbn in Hsz; lia|].
      rewrite Heq, fmap_app in Hslots. apply app_inj_tail in Hslots as [-> _].
      by rewrite removelast_last.
  - destruct (cleared_facts d HInv) as (_ & Hz & _).
    unfold slots. rewrite Hz. done.
  - by rewrite getSnapshot_state.
  - by rewrite front_state.
  - by rewrite back_state.
Qed.

Lemma run_Rep ops d l :
  Rep d l → in_range (_capacityIncrementFactor d) →
  Rep (run ops d) (ref_run ops l).
Proof.
  revert d l. induction ops as [|op ops IH]; intros d l HRep Hin; cbn; [done|].
  apply IH; [by apply run_op_Rep|].
  destruct HRep as [HInv _].
  destruct (run_op_Inv op d HInv (in_range_accepted _ Hin)) as (_ & -> & _). done.
Qed.

End Runs.

(** * The specification's statements *)

(** ** Order preservation *)

(** C1.  Start from a deque built by the constructor with a factor of
    [[1.1, 2]] and make any sequence of calls ([pushFront], [pushBack],
    [popFront], [popBack], and also [clear] and the read-only members), with
    whatever growth they trigger and whatever they throw on an empty deque.
    Then [getSnapshot] returns, leaves the object as it is, and yields an
    array whose length is [size] and whose items are, front to back, exactly
    those that the same calls leave in the reference deque. *)
Theorem getSnapshot_refines_reference {R : Rounding} {T} (initialCapacity factor : number)
    (d0 : SlimDeque T) (ops : list (Op T)) :
  constructor initialCapacity factor = Return d0 →
  in_range factor →
  let d := run ops d0 in
  let items := ref_run ops [] in
  getSnapshot d = (Return (Some <$> items), d) ∧
  Z.of_nat (length (Some <$> items)) = _size d.
Proof.
  intros Hnew Hin d items.
  destruct (constructor_Inv _ _ _ Hnew) as (_ & _ & HRep0 & Hfac).
  assert (HRep : Rep d items) by (apply run_Rep; [done|by rewrite Hfac]).
  pose proof HRep as [HInv Hslots].
  rewrite getSnapshot_spec, Hslots by done.
  split; [done|]. rewrite length_fmap. symmetry. by apply Rep_size.
Qed.

(** ** Index bounds *)

(** C2.  After every call of every sequence of calls made on a deque that the
    constructor returned, [0 <= size <= capacity] and
    [0 <= frontIndex < capacity]. *)
Theorem indices_within_bounds {R : Rounding} {T} (initialCapacity factor : number)
    (d0 : SlimDeque T) (ops : list (Op T)) :
  constructor initialCapacity factor = Return d0 →
  let d := run ops d0 in
  capacity d = (Return (buffer_length d), d) ∧
  0 <= _size d <= buffer_length d ∧
  0 <= _frontIndex d < buffer_length d.
Proof.
  intros Hnew d.
  destruct (constructor_Inv _ _ _ Hnew) as (HInv0 & Hacc & _).
  destruct (run_Inv ops d0 HInv0 Hacc) as ([Hfront Hsize] & _).
  done.
Qed.

(** ** Growth *)

(** The effect of a push on the capacity and on the increment count, for any
    method made of [_increaseCapacityIfNecessary] followed by a write that
    stays inside the buffer. *)
Lemma push_trigger_generic {R : Rounding} {T} (push : T → M T unit)
    (pushed : T → SlimDeque T → SlimDeque T) :
  (∀ item d, push item d =
     match _increaseCapacityIfNecessary d with
     | (Return _, d1) => (Return tt, pushed item d1)
     | (Throw e, d1) => (Throw e, d1)
     | (OutOfFuel, d1) => (OutOfFuel, d1)
     end) →
  (∀ item d1, Inv d1 → _size d1 < buffer_length d1 →
     buffer_length (pushed item d1) = buffer_length d1 ∧
     _numberOfCapacityIncrements (pushed item d1) = _numberOfCapacityIncrements d1) →
  ∀ item d, Inv d → in_range (_capacityIncrementFactor d) →
  let d' := exec (push item) d in
  push item d = (Return tt, d') ∧
  (_size d = buffer_length d →
   _numberOfCapacityIncrements d' = _numberOfCapacityIncrements d + 1 ∧
   of_Z (buffer_length d') =
   Math_ceil (num_mul (of_Z (buffer_length d)) (_capacityIncrementFactor d))) ∧
  (_size d < buffer_length d →
   _numberOfCapacityIncrements d' = _numberOfCapacityIncrements d ∧
   buffer_length d' = buffer_length d).
Proof.
  intros Heq Hframe item d HInv Hin d'. subst d'. unfold exec. rewrite Heq.
  pose proof (in_range_accepted _ Hin) as Hacc.
  destruct (increase_cases d HInv Hacc)
    as [[Hroom ->]|[(Hfull & q & Hq & Hlo & ->)|(Hfull & Hnan & ->)]]; cbn [snd].
  - destruct (Hframe item d HInv Hroom) as [Hlen Hcnt].
    split; [done|]. split; [lia|done].
  - destruct (grown_Inv d q HInv Hfull Hlo) as (HInv' & Hroom & Hlen).
    destruct (Hframe item (grown d q) HInv' Hroom) as [Hlen' Hcnt].
    split; [done|]. split; [|lia]. intros _.
    rewrite Hcnt, Hlen', Hlen, Hq. done.
  - destruct Hin as (q & Hq & _). congruence.
Qed.

(** C3.  On a deque state of the data model (indices within the buffer,
    factor in [[1.1, 2]]), [pushBack] and [pushFront] return; called when
    [size = capacity] they add exactly 1 to [numberOfCapacityIncrements] and
    make the capacity [Math.ceil(oldCapacity * capacityIncrementFactor)];
    called when [size < capacity] they leave both as they are. *)
Theorem push_growth_trigger {R : Rounding} {T} (push : T → M T unit) (item : T) (d : SlimDeque T) :
  push = pushBack ∨ push = pushFront →
  Inv d → in_range (_capacityIncrementFactor d) →
  let d' := exec (push item) d in
  push item d = (Return tt, d') ∧
  (_size d = buffer_length d →
   _numberOfCapacityIncrements d' = _numberOfCapacityIncrements d + 1 ∧
   of_Z (buffer_length d') =
   Math_ceil (num_mul (of_Z (buffer_length d)) (_capacityIncrementFactor d))) ∧
  (_size d < buffer_length d →
   _numberOfCapacityIncrements d' = _numberOfCapacityIncrements d ∧
   buffer_length d' = buffer_length d).
Proof.
  intros [-> | ->].
  - apply (push_trigger_generic pushBack pushedBack); [apply pushBack_eq|].
    intros item' d1 HInv1 Hroom. by rewrite pushedBack_length.
  - apply (push_trigger_generic pushFront pushedFront); [apply pushFront_eq|].
    intros item' d1 HInv1 Hroom. by rewrite pushedFront_length.
Qed.

(** C4.  Whenever growth occurs (the buffer is full when
    [_increaseCapacityIfNecessary] runs), it returns with [frontIndex = 0] and
    the same [size]; the item that was [k] steps from the front is at index
    [k] of the new buffer, for every [k < size], and the slots above are
    cleared; so the occupied region, hence what [getSnapshot] yields, is what
    it was before. *)
Theorem growth_relocates_to_front {R : Rounding} {T} (d : SlimDeque T) :
  Inv d → in_range (_capacityIncrementFactor d) → buffer_length d <= _size d →
  let d' := exec _increaseCapacityIfNecessary d in
  _increaseCapacityIfNecessary d = (Return tt, d') ∧
  _frontIndex d' = 0 ∧ _size d' = _size d ∧
  (∀ k : nat, Z.of_nat k < _size d → _cyclicBuffer d' !! k = Some (slot d k)) ∧
  (∀ k : nat, _size d <= Z.of_nat k < buffer_length d' →
     _cyclicBuffer d' !! k = Some None) ∧
  slots d' = slots d ∧
  fst (getSnapshot d') = fst (getSnapshot d).
Proof.
  intros HInv (q & Hq & Hlo & Hhi) Hfull d'. subst d'. unfold exec.
  pose proof HInv as [Hfront Hsize].
  assert (Heq : _size d = buffer_length d) by lia.
  rewrite (full_growth d q) by done. cbn [snd].
  destruct (grown_Inv d q HInv Heq Hlo) as (HInv' & Hroom & Hlen).
  pose proof (grown_slots d q HInv Heq Hlo) as Hslots.
  repeat split; try done.
  - intros k Hk. cbn. rewrite lookup_app_l by (rewrite slots_length; lia).
    by apply slots_lookup.
  - intros k Hk. rewrite Hlen in Hk. cbn.
    rewrite lookup_app_r by (rewrite slots_length; lia).
    apply lookup_replicate_2. rewrite slots_length. lia.
  - by rewrite !getSnapshot_spec, Hslots.
Qed.

(** C5.  For every integer capacity [>= 1] and every factor of [[1.1, 2]],
    [Math.ceil(capacity * factor)] is an integer strictly above the capacity
    (at capacity 1 too).  This is the capacity the code grows to: on every
    full deque state of the data model, whatever its capacity,
    [_increaseCapacityIfNecessary] returns with a buffer of exactly that
    length, and so do [pushBack] and [pushFront], which makes the capacity
    strictly larger.  Consequently, over any sequence of calls made on a
    deque that the constructor returned, the capacity after any further calls
    is at least what it was before them, and it is strictly more after a
    push made when the deque is full. *)
Theorem growth_makes_progress {R : Rounding} {T} (cap : Z) (f : number)
    (d : SlimDeque T) (item : T)
    (initialCapacity factor : number) (d0 : SlimDeque T) (ops1 ops2 : list (Op T)) :
  1 <= cap → in_range f →
  Inv d → in_range (_capacityIncrementFactor d) → _size d = buffer_length d →
  constructor initialCapacity factor = Return d0 →
  (∃ newCapacity : Z,
     Math_ceil (num_mul (of_Z cap) f) = of_Z newCapacity ∧ cap < newCapacity) ∧
  (∃ newCapacity : Z,
     Math_ceil (num_mul (of_Z (buffer_length d)) (_capacityIncrementFactor d))
     = of_Z newCapacity ∧
     buffer_length d < newCapacity ∧
     _increaseCapacityIfNecessary d
     = (Return tt, exec _increaseCapacityIfNecessary d) ∧
     buffer_length (exec _increaseCapacityIfNecessary d) = newCapacity ∧
     buffer_length (exec (pushBack item) d) = newCapacity ∧
     buffer_length (exec (pushFront item) d) = newCapacity) ∧
  buffer_length (run ops1 d0) <= buffer_length (run (ops1 ++ ops2) d0) ∧
  (in_range factor → _size (run ops1 d0) = buffer_length (run ops1 d0) →
   buffer_length (run ops1 d0) < buffer_length (run (ops1 ++ [PushBack item]) d0) ∧
   buffer_length (run ops1 d0) < buffer_length (run (ops1 ++ [PushFront item]) d0)).
Proof.
  intros Hcap (qf & -> & Hlof & Hhif) HInv (q & Hq & Hlo & Hhi) Hfull Hnew.
  assert (Hgrowth : ∀ d1 q1, Inv d1 → _capacityIncrementFactor d1 = Finite q1 →
    (1.1 <= q1)%Q → _size d1 = buffer_length d1 →
    buffer_length d1 < grownCapacity d1 q1 ∧
    _increaseCapacityIfNecessary d1 = (Return tt, grown d1 q1) ∧
    buffer_length (grown d1 q1) = grownCapacity d1 q1 ∧
    buffer_length (exec (pushBack item) d1) = grownCapacity d1 q1 ∧
    buffer_length (exec (pushFront item) d1) = grownCapacity d1 q1).
  { intros d1 q1 HInv1 Hq1 Hlo1 Hfull1.
    destruct (grown_Inv d1 q1 HInv1 Hfull1 Hlo1) as (HInv' & Hroom & Hlen).
    pose proof (full_growth d1 q1 HInv1 Hfull1 Hq1 Hlo1) as Hgrow.
    split; [apply ceil_grows; [unfold Inv in HInv1; lia|done]|].
    split; [done|]. split; [done|]. unfold exec.
    rewrite pushBack_eq, pushFront_eq, Hgrow. cbn [snd].
    by rewrite pushedBack_length, pushedFront_length. }
  split; [|split; [|split]].
  - exists (Qceiling (rnd (inject_Z cap * qf))). split; [done|]. by apply ceil_grows.
  - destruct (Hgrowth d q HInv Hq Hlo Hfull) as (Hlt & Hgrow & Hlen & HB & HF).
    exists (grownCapacity d q). unfold exec at 1 2. rewrite Hgrow, Hq. cbn [snd].
    repeat split; done.
  - destruct (constructor_Inv _ _ _ Hnew) as (HInv0 & Hacc & _).
    destruct (run_Inv ops1 d0 HInv0 Hacc) as (HInv1 & Hfac & _).
    rewrite run_app. apply run_Inv; [done|by rewrite Hfac].
  - intros (q0 & -> & Hlo0 & Hhi0) Hfull1.
    destruct (constructor_Inv _ _ _ Hnew) as (HInv0 & Hacc & _ & Hfac0).
    destruct (run_Inv ops1 d0 HInv0 Hacc) as (HInv1 & Hfac & _).
    rewrite Hfac0 in Hfac.
    destruct (Hgrowth (run ops1 d0) q0 HInv1 Hfac Hlo0 Hfull1)
      as (Hlt & _ & _ & HB & HF).
    rewrite !run_app. cbn [run fold_left run_op]. by rewrite HB, HF.
Qed.

(** ** Failures *)

(** C6.  On a deque with [size = 0], each of [front], [back], [popFront] and
    [popBack] throws the empty-collection error, and the object after the
    failed call is the object before it, field by field. *)
Theorem empty_deque_throws_unchanged {T} (d : SlimDeque T) :
  _size d = 0 →
  front d = (Throw EmptyCollection, d) ∧
  back d = (Throw EmptyCollection, d) ∧
  popFront d = (Throw EmptyCollection, d) ∧
  popBack d = (Throw EmptyCollection, d).
Proof. apply empty_throws. Qed.

(** For a factor other than NaN and a capacity other than plus infinity,
    construction throws the argument error exactly when the capacity is not
    a positive integer or the factor is outside [[1.1, 2]]. *)
Lemma constructor_throws_iff {T} (initialCapacity factor : number) :
  initialCapacity ≠ PosInfinity → factor ≠ NaN →
  constructor (T:=T) initialCapacity factor = Throw InvalidArgument ↔
  (¬ ∃ n, is_positive_integer initialCapacity n) ∨ ¬ in_range factor.
Proof.
  intros HinfC HnanF. unfold constructor.
  destruct (isNaturalNumber initialCapacity) eqn:Hnat; cbn [negb].
  - destruct initialCapacity as [| | |q]; try done.
    apply isNaturalNumber_Finite in Hnat as [Hge Heq].
    assert (Hpos : ∃ n, is_positive_integer (Finite q) n).
    { exists (Qfloor q). split; [done|]. by exists q. }
    destruct (_validateCapacityIncrementFactor factor) as [[]|e|] eqn:Hval.
    + apply accepted_cases in Hval as [?|Hin]; [done|].
      unfold Array_new.
      replace (Qle_bool 0 q) with true.
      2:{ symmetry. apply Qle_bool_iff. rewrite Heq.
          change 0%Q with (inject_Z 0). rewrite <- Zle_Qle. lia. }
      replace (Qeq_bool (inject_Z (Qfloor q)) q) with true.
      2:{ symmetry. apply Qeq_bool_iff. by symmetry. }
      cbn [andb]. split; [done|]. intros [?|?]; done.
    + assert (e = InvalidArgument) as ->.
      { unfold _validateCapacityIncrementFactor in Hval.
        repeat destruct (_ : bool) in Hval; congruence. }
      split; [|done]. intros _. right. intros Hin.
      apply in_range_accepted in Hin. unfold accepted in Hin. congruence.
    + unfold _validateCapacityIncrementFactor in Hval.
      repeat destruct (_ : bool) in Hval; congruence.
  - split; [|done]. intros _. left. intros (n & Hn & q & -> & Heq).
    assert (isNaturalNumber (Finite q) = true); [|congruence].
    apply isNaturalNumber_Finite. rewrite Heq, Qfloor_Z. done.
Qed.

(** C7.  The constructor lets a factor that is not a number through: neither
    [factor < 1.1] nor [factor > 2] holds of NaN.  The construction returns a
    deque although NaN is not in [[1.1, 2]], and the first push on this
    deque once it is full throws from [new Array]. *)
Theorem constructor_accepts_NaN_factor {R : Rounding} :
  constructor (T:=Z) (Finite 128) NaN
  = Return (mkSlimDeque (replicate 128 None) 0 0 0 NaN) ∧
  ¬ in_range NaN ∧
  constructor (T:=Z) (Finite 1) NaN = Return (mkSlimDeque [None] 0 0 0 NaN) ∧
  pushBack 5 (mkSlimDeque [None] 0 0 0 NaN)
  = (Return tt, mkSlimDeque [Some 5] 0 1 0 NaN) ∧
  pushBack 7 (mkSlimDeque [Some 5] 0 1 0 NaN)
  = (Throw RangeError, mkSlimDeque [Some 5] 0 1 0 NaN).
Proof.
  split; [by vm_compute|]. split.
  - intros (q & Hq & _). done.
  - repeat split; by vm_compute.
Qed.

(** An infinite capacity passes [isNaturalNumber] and fails in [new Array]. *)
Lemma constructor_infinite_capacity :
  isNaturalNumber PosInfinity = true ∧
  constructor (T:=Z) PosInfinity (Finite 1.5) = Throw RangeError.
Proof. split; reflexivity. Qed.

(** ** Clearing *)

(** C8.  On a deque state of the data model, [clear] returns and leaves
    [size = 0] and [frontIndex = 0]; the object it leaves is the one left by
    calling [popFront] until the deque is empty (one call per stored item)
    and then setting [frontIndex] to 0, so every observation agrees; the
    capacity and [numberOfCapacityIncrements] are what they were. *)
Theorem clear_is_repeated_popFront {T} (d : SlimDeque T) :
  Inv d →
  let d' := exec clear d in
  clear d = (Return tt, d') ∧
  d' = popFront_until_empty_then_reset d ∧
  _size d' = 0 ∧ isEmpty d' = (Return true, d') ∧ _frontIndex d' = 0 ∧
  getSnapshot d' = (Return [], d') ∧
  buffer_length d' = buffer_length d ∧
  _numberOfCapacityIncrements d' = _numberOfCapacityIncrements d.
Proof.
  intros HInv d'.
  destruct (cleared_facts d HInv) as (HInv' & Hsz & Hfront & Hlen & Hcnt & _).
  fold d' in HInv', Hsz, Hfront, Hlen, Hcnt.
  assert (Heq : clear d = (Return tt, d')).
  { subst d'. unfold exec. by rewrite clear_eq. }
  repeat split; try done.
  - subst d'. unfold exec. by rewrite clear_eq.
  - unfold isEmpty, read. by rewrite Hsz.
  - rewrite getSnapshot_spec by done. unfold slots. by rewrite Hsz.
Qed.

(** ** One item *)

(** C10.  On a deque state of the data model with [size = 1], [front] and
    [back] return the same item, which is also what [popFront] and what
    [popBack] return from that state, and either pop leaves the deque
    empty. *)
Theorem single_item_front_is_back {T} (d : SlimDeque T) :
  Inv d → _size d = 1 →
  let item := array_get (_cyclicBuffer d) (_frontIndex d) in
  front d = (Return item, d) ∧ back d = (Return item, d) ∧
  fst (popFront d) = Return item ∧ fst (popBack d) = Return item ∧
  _size (exec popFront d) = 0 ∧ _size (exec popBack d) = 0 ∧
  fst (isEmpty (exec popFront d)) = Return true ∧
  fst (isEmpty (exec popBack d)) = Return true.
Proof.
  intros [Hfront Hsize] Hone item. subst item.
  assert (Hnz : _size d ≠ 0) by lia.
  assert (Hback : fixIndex (buffer_length d) (_frontIndex d + _size d - 1)
                  = _frontIndex d).
  { rewrite Hone, Z.add_simpl_r. by apply fixIndex_small. }
  unfold exec.
  rewrite front_eq, back_eq, popFront_eq, popBack_eq, Hback by done.
  unfold isEmpty, read. cbn. rewrite Hone. done.
Qed.

(** * Behaviour beyond the specification's statements *)

(** ** What the members return, against the reference deque *)

Section Observations.

Context {R : Rounding} {T : Type}.
Implicit Types (this d : SlimDeque T) (l : list T) (item x : T).

Lemma Rep_front_value d x l :
  Rep d (x :: l) → array_get (_cyclicBuffer d) (_frontIndex d) = Some x.
Proof.
  intros HRep. pose proof (Rep_size _ _ HRep) as Hsz. cbn in Hsz.
  destruct HRep as [[Hfront Hsize] Hslots].
  assert (Hlook : slots d !! 0%nat = Some (Some x)) by (by rewrite Hslots).
  rewrite slots_lookup in Hlook by lia. injection Hlook as <-.
  unfold slot. rewrite Nat2Z.inj_0, Z.add_0_r, fixIndex_small by done. done.
Qed.

Lemma Rep_back_value d x l :
  Rep d (l ++ [x]) →
  array_get (_cyclicBuffer d)
    (fixIndex (buffer_length d) (_frontIndex d + _size d - 1)) = Some x.
Proof.
  intros HRep. pose proof (Rep_size _ _ HRep) as Hsz.
  rewrite length_app in Hsz. cbn in Hsz.
  destruct HRep as [[Hfront Hsize] Hslots].
  assert (Hlook : slots d !! length l = Some (Some x)).
  { rewrite Hslots, fmap_app, lookup_app_r by (rewrite length_fmap; lia).
    rewrite length_fmap, Nat.sub_diag. done. }
  rewrite slots_lookup in Hlook by lia. injection Hlook as <-.
  unfold slot. repeat f_equal. lia.
Qed.

Lemma Rep_nil_size d : Rep d [] → _size d = 0.
Proof. intros HRep. by rewrite (Rep_size _ _ HRep). Qed.

(** The constructor's deque, run through any calls, stands for the list that
    the reference deque holds after the same calls. *)
Lemma run_from_constructor_Rep initialCapacity factor (d0 : SlimDeque T) ops :
  constructor initialCapacity factor = Return d0 → in_range factor →
  Rep (run ops d0) (ref_run ops []) ∧
  in_range (_capacityIncrementFactor (run ops d0)).
Proof.
  intros Hnew Hin.
  destruct (constructor_Inv _ _ _ Hnew) as (HInv0 & Hacc & HRep0 & Hfac).
  split; [apply run_Rep; [done|by rewrite Hfac]|].
  destruct (run_Inv ops d0 HInv0 Hacc) as (_ & -> & _). by rewrite Hfac.
Qed.

End Observations.

(** X1.  On a deque built by the constructor with a factor of [[1.1, 2]] and
    taken through any calls, the read-only members answer for the reference
    deque: [size] is the length of its list and [isEmpty] tells whether the
    list is empty; [front] returns its first item and [back] its last one,
    never [undefined], and both throw exactly when the list is empty.  None
    of them changes the object. *)
Theorem getters_refine_reference {R : Rounding} {T} (initialCapacity factor : number)
    (d0 : SlimDeque T) (ops : list (Op T)) :
  constructor initialCapacity factor = Return d0 → in_range factor →
  let d := run ops d0 in
  let items := ref_run ops [] in
  size d = (Return (Z.of_nat (length items)), d) ∧
  isEmpty d = (Return (bool_decide (items = [])), d) ∧
  front d = (match head items with
             | Some x => Return (Some x)
             | None => Throw EmptyCollection
             end, d) ∧
  back d = (match last items with
            | Some x => Return (Some x)
            | None => Throw EmptyCollection
            end, d).
Proof.
  intros Hnew Hin d items.
  destruct (run_from_constructor_Rep _ _ _ ops Hnew Hin) as [HRep _].
  fold d items in HRep. pose proof (Rep_size _ _ HRep) as Hsz.
  split; [unfold size, read; by rewrite Hsz|].
  split.
  { unfold isEmpty, read. rewrite Hsz. f_equal.
    destruct items; done. }
  destruct items as [|x l'] using rev_ind.
  - pose proof (empty_throws d Hsz) as (-> & -> & _). done.
  - rewrite last_snoc. rewrite length_app in Hsz. cbn in Hsz.
    rewrite front_eq, back_eq by lia.
    rewrite (Rep_back_value d x l') by done.
    split; [|done].
    destruct l' as [|y l'']; cbn [app head] in *.
    + by rewrite (Rep_front_value d x []).
    + by rewrite (Rep_front_value d y (l'' ++ [x])).
Qed.

(** X2.  On such a deque [popFront] returns the first item of the reference
    list and [popBack] its last one, never [undefined]; each throws exactly
    when the list is empty, and what it leaves is again a deque of the data
    model that stands for the list without that item. *)
Theorem pops_refine_reference {R : Rounding} {T} (initialCapacity factor : number)
    (d0 : SlimDeque T) (ops : list (Op T)) :
  constructor initialCapacity factor = Return d0 → in_range factor →
  let d := run ops d0 in
  let items := ref_run ops [] in
  fst (popFront d) = match head items with
                     | Some x => Return (Some x)
                     | None => Throw EmptyCollection
                     end ∧
  fst (popBack d) = match last items with
                    | Some x => Return (Some x)
                    | None => Throw EmptyCollection
                    end ∧
  Rep (exec popFront d) (tail items) ∧
  Rep (exec popBack d) (removelast items).
Proof.
  intros Hnew Hin d items.
  destruct (run_from_constructor_Rep _ _ _ ops Hnew Hin) as [HRep Hin'].
  fold d items in HRep, Hin'. pose proof (Rep_size _ _ HRep) as Hsz.
  split; [|split; [|split]].
  - destruct items as [|x l']; cbn [head].
    + by pose proof (empty_throws d Hsz) as (_ & _ & -> & _).
    + cbn in Hsz. rewrite popFront_eq by lia. cbn [fst].
      by rewrite (Rep_front_value d x l').
  - destruct items as [|x l' _] using rev_ind.
    + by pose proof (empty_throws d Hsz) as (_ & _ & _ & ->).
    + rewrite last_snoc. rewrite length_app in Hsz. cbn in Hsz.
      rewrite popBack_eq by lia. cbn [fst].
      by rewrite (Rep_back_value d x l').
  - exact (run_op_Rep PopFront d items HRep Hin').
  - exact (run_op_Rep PopBack d items HRep Hin').
Qed.

(** ** Pushes and pops on any deque of the data model *)

Section Ends.

Context {R : Rounding} {T : Type}.
Implicit Types (this d : SlimDeque T) (item : T) (v : option T).

Lemma fixIndex_mod len c :
  0 < len → - len <= c < 2 * len → fixIndex len c = c mod len.
Proof.
  intros Hlen Hc. unfold fixIndex.
  destruct (Z.geb_spec c len).
  - apply Z.mod_unique_pos with (q := 1); lia.
  - destruct (Z.ltb_spec c 0).
    + apply Z.mod_unique_pos with (q := -1); lia.
    + symmetry. apply Z.mod_small. lia.
Qed.

Lemma slots_head_value d v rest :
  Inv d → slots d = v :: rest →
  front d = (Return v, d) ∧ fst (popFront d) = Return v.
Proof.
  intros [Hfront Hsize] Hslots.
  assert (Hsz : _size d ≠ 0).
  { apply (f_equal length) in Hslots. rewrite slots_length in Hslots. cbn in Hslots. lia. }
  assert (Hlook : slots d !! 0%nat = Some v) by (by rewrite Hslots).
  rewrite slots_lookup in Hlook by lia. injection Hlook as <-.
  rewrite front_eq, popFront_eq by done.
  unfold slot. rewrite Nat2Z.inj_0, Z.add_0_r, fixIndex_small by done. done.
Qed.

Lemma slots_last_value d v pre :
  Inv d → slots d = pre ++ [v] →
  back d = (Return v, d) ∧ fst (popBack d) = Return v.
Proof.
  intros [Hfront Hsize] Hslots.
  assert (Hlen : Z.to_nat (_size d) = S (length pre)).
  { apply (f_equal length) in Hslots.
    rewrite slots_length, length_app in Hslots. cbn in Hslots. lia. }
  assert (Hlook : slots d !! length pre = Some v).
  { rewrite Hslots, lookup_app_r, Nat.sub_diag by lia. done. }
  rewrite slots_lookup in Hlook by lia. injection Hlook as <-.
  rewrite back_eq, popBack_eq by lia.
  unfold slot. replace (_frontIndex d + Z.of_nat (length pre))
    with (_frontIndex d + _size d - 1) by lia. done.
Qed.

End Ends.

(** X3.  On a deque state of the data model, the item just pushed is the one
    its end shows: after [pushBack(item)], [back] returns [item]; after
    [pushFront(item)], [front] returns [item]; in both cases the deque is
    not empty and its size is one more. *)
Theorem push_then_peek {R : Rounding} {T} (item : T) (d : SlimDeque T) :
  Inv d → in_range (_capacityIncrementFactor d) →
  back (exec (pushBack item) d) = (Return (Some item), exec (pushBack item) d) ∧
  front (exec (pushFront item) d) = (Return (Some item), exec (pushFront item) d) ∧
  _size (exec (pushBack item) d) = _size d + 1 ∧
  _size (exec (pushFront item) d) = _size d + 1 ∧
  fst (isEmpty (exec (pushBack item) d)) = Return false ∧
  fst (isEmpty (exec (pushFront item) d)) = Return false.
Proof.
  intros HInv Hin. pose proof HInv as [_ Hsize].
  pose proof (in_range_accepted _ Hin) as Hacc.
  destruct (pushBack_cases item d HInv Hacc) as (HInvB & _ & _ & HB).
  destruct (HB Hin) as (_ & HszB & HslotsB).
  destruct (pushFront_cases item d HInv Hacc) as (HInvF & _ & _ & HF).
  destruct (HF Hin) as (_ & HszF & HslotsF).
  destruct (slots_last_value _ _ _ HInvB HslotsB) as [-> _].
  destruct (slots_head_value _ _ _ HInvF HslotsF) as [-> _].
  repeat split; try done; unfold isEmpty, read; cbn [fst]; f_equal;
    apply Z.eqb_neq; lia.
Qed.

(** X4.  On a deque state of the data model, a pop undoes the push at the
    same end: [popBack] after [pushBack(item)], and [popFront] after
    [pushFront(item)], return [item] and leave the size, the occupied region
    and the snapshot as they were before the push (the buffer may have
    grown meanwhile). *)
Theorem pop_undoes_push {R : Rounding} {T} (item : T) (d : SlimDeque T) :
  Inv d → in_range (_capacityIncrementFactor d) →
  let dB := exec popBack (exec (pushBack item) d) in
  let dF := exec popFront (exec (pushFront item) d) in
  fst (popBack (exec (pushBack item) d)) = Return (Some item) ∧
  fst (popFront (exec (pushFront item) d)) = Return (Some item) ∧
  _size dB = _size d ∧ _size dF = _size d ∧
  getSnapshot dB = (Return (slots d), dB) ∧
  getSnapshot dF = (Return (slots d), dF) ∧
  fst (getSnapshot d) = Return (slots d).
Proof.
  intros HInv Hin dB dF. subst dB dF. pose proof HInv as [_ Hsize].
  pose proof (in_range_accepted _ Hin) as Hacc.
  destruct (pushBack_cases item d HInv Hacc) as (HInvB & _ & _ & HB).
  destruct (HB Hin) as (_ & HszB & HslotsB).
  destruct (pushFront_cases item d HInv Hacc) as (HInvF & _ & _ & HF).
  destruct (HF Hin) as (_ & HszF & HslotsF).
  destruct (slots_last_value _ _ _ HInvB HslotsB) as [_ ->].
  destruct (slots_head_value _ _ _ HInvF HslotsF) as [_ ->].
  destruct (popBack_cases _ HInvB) as (HInvB' & _ & _ & _ & HpB).
  destruct HpB as (rB & _ & HszB' & HeqB); [lia|].
  destruct (popFront_cases _ HInvF) as (HInvF' & _ & _ & _ & HpF).
  destruct HpF as (rF & _ & HszF' & HeqF); [lia|].
  rewrite HslotsB in HeqB. apply app_inj_tail in HeqB as [HeqB _].
  rewrite HslotsF in HeqF. injection HeqF as _ HeqF.
  rewrite !getSnapshot_spec by done. rewrite <- HeqB, <- HeqF.
  repeat split; try done; lia.
Qed.

(** X5.  A pop on a non-empty deque state of the data model returns what the
    getter of its end shows, takes one off the size, and leaves the capacity,
    the increment count and the factor alone.  [popFront] moves [frontIndex]
    one step forward modulo the capacity and [popBack] leaves it; the slot
    the item was in is [undefined] afterwards. *)
Theorem pop_effects {T} (d : SlimDeque T) :
  Inv d → _size d ≠ 0 →
  let dF := exec popFront d in
  let dB := exec popBack d in
  let backIndex := (_frontIndex d + _size d - 1) mod buffer_length d in
  fst (popFront d) = fst (front d) ∧ fst (popBack d) = fst (back d) ∧
  _size dF = _size d - 1 ∧ _size dB = _size d - 1 ∧
  buffer_length dF = buffer_length d ∧ buffer_length dB = buffer_length d ∧
  _numberOfCapacityIncrements dF = _numberOfCapacityIncrements d ∧
  _numberOfCapacityIncrements dB = _numberOfCapacityIncrements d ∧
  _capacityIncrementFactor dF = _capacityIncrementFactor d ∧
  _capacityIncrementFactor dB = _capacityIncrementFactor d ∧
  _frontIndex dF = (_frontIndex d + 1) mod buffer_length d ∧
  _frontIndex dB = _frontIndex d ∧
  array_get (_cyclicBuffer dF) (_frontIndex d) = None ∧
  array_get (_cyclicBuffer dB) backIndex = None.
Proof.
  intros HInv Hnz dF dB backIndex. subst dF dB backIndex.
  pose proof HInv as [Hfront Hsize].
  destruct (popFront_cases d HInv) as (_ & HfacF & HlenF & HcntF & HpF).
  destruct (HpF Hnz) as (rF & _ & HszF & _).
  destruct (popBack_cases d HInv) as (_ & HfacB & HlenB & HcntB & HpB).
  destruct (HpB Hnz) as (rB & _ & HszB & _).
  rewrite <- (fixIndex_mod (buffer_length d) (_frontIndex d + _size d - 1)) by lia.
  assert (Hidx : 0 <= fixIndex (buffer_length d) (_frontIndex d + _size d - 1)
                 < buffer_length d) by (apply fixIndex_range; lia).
  repeat split; try done.
  - by rewrite popFront_eq, front_eq.
  - by rewrite popBack_eq, back_eq.
  - unfold exec. rewrite popFront_eq by done. cbn [snd].
    rewrite poppedFront_frontIndex by done.
    destruct (Z.eqb_spec (_frontIndex d + 1) (buffer_length d)) as [Heq|Hne].
    + rewrite Heq, Z.mod_same by lia. done.
    + rewrite Z.mod_small by lia. done.
  - unfold exec. by rewrite popBack_eq.
  - unfold exec. rewrite popFront_eq by done. cbn.
    by apply array_get_set_eq.
  - unfold exec. rewrite popBack_eq by done. cbn.
    by apply array_get_set_eq.
Qed.

(** X6.  [_fixIndexIfNecessary] wraps once: for a candidate no more than one
    buffer length below 0 or above the last index, it returns the candidate
    modulo the buffer length, an index of the buffer, and leaves the object
    alone. *)
Theorem fixIndex_wraps_once {T} (d : SlimDeque T) (candidateIndex : Z) :
  0 < buffer_length d →
  - buffer_length d <= candidateIndex < 2 * buffer_length d →
  _fixIndexIfNecessary candidateIndex d
  = (Return (candidateIndex mod buffer_length d), d) ∧
  0 <= candidateIndex mod buffer_length d < buffer_length d.
Proof.
  intros Hlen Hc. rewrite _fixIndexIfNecessary_eq, fixIndex_mod by done.
  split; [done|]. apply Z.mod_pos_bound. done.
Qed.

(** ** No reference is kept to an item that was removed *)

Section Hygiene.

Context {R : Rounding} {T : Type}.
Implicit Types (this d : SlimDeque T) (item : T).

Local Ltac blia := unfold buffer_length in *; lia.

Lemma pushedBack_Clean item d :
  Inv d → _size d < buffer_length d → Clean d → Clean (pushedBack item d).
Proof.
  intros HInv Hroom HClean i. pose proof HInv as [Hfront Hsize].
  rewrite pushedBack_length by done. cbn [pushedBack _frontIndex _size _cyclicBuffer].
  intros Hi Hun.
  rewrite array_get_set_ne.
  - apply HClean; [done|]. intros k Hk. apply Hun. blia.
  - apply fixIndex_range; blia.
  - blia.
  - intros Heq. apply (Hun (_size d)); [blia|done].
Qed.

Lemma pushedFront_Clean item d :
  Inv d → _size d < buffer_length d → Clean d → Clean (pushedFront item d).
Proof.
  intros HInv Hroom HClean i. pose proof HInv as [Hfront Hsize].
  rewrite pushedFront_length by done.
  cbn [pushedFront _frontIndex _size _cyclicBuffer].
  assert (Hidx : 0 <= fixIndex (buffer_length d) (_frontIndex d - 1) < buffer_length d)
    by (apply fixIndex_range; blia).
  intros Hi Hun.
  rewrite array_get_set_ne.
  - apply HClean; [done|]. intros k Hk.
    rewrite <- fixIndex_pred_succ by blia. apply Hun. blia.
  - done.
  - blia.
  - intros Heq. apply (Hun 0); [blia|].
    rewrite Z.add_0_r, (fixIndex_small _ (fixIndex _ _)) by done. done.
Qed.

Lemma poppedFront_Clean d :
  Inv d → _size d ≠ 0 → Clean d → Clean (poppedFront d).
Proof.
  intros HInv Hnz HClean i. pose proof HInv as [Hfront Hsize].
  rewrite poppedFront_length, poppedFront_frontIndex by done.
  cbn [poppedFront _size _cyclicBuffer].
  intros Hi Hun.
  destruct (decide (i = _frontIndex d)) as [->|Hne].
  - by apply array_get_set_eq.
  - rewrite array_get_set_ne by (done || blia).
    apply HClean; [done|]. intros k Hk.
    destruct (decide (k = 0)) as [->|Hk0].
    + rewrite Z.add_0_r, fixIndex_small by done. done.
    + replace k with ((k - 1) + 1) by blia.
      rewrite <- fixIndex_succ_front by blia. apply Hun. blia.
Qed.

Lemma poppedBack_Clean d :
  Inv d → _size d ≠ 0 → Clean d → Clean (poppedBack d).
Proof.
  intros HInv Hnz HClean i. pose proof HInv as [Hfront Hsize].
  rewrite poppedBack_length by done.
  cbn [poppedBack _frontIndex _size _cyclicBuffer].
  assert (Hidx : 0 <= fixIndex (buffer_length d) (_frontIndex d + _size d - 1)
                 < buffer_length d) by (apply fixIndex_range; blia).
  intros Hi Hun.
  destruct (decide (i = fixIndex (buffer_length d) (_frontIndex d + _size d - 1)))
    as [->|Hne].
  - by apply array_get_set_eq.
  - rewrite array_get_set_ne by (done || blia).
    apply HClean; [done|]. intros k Hk.
    destruct (decide (k = _size d - 1)) as [->|Hk1].
    + replace (_frontIndex d + (_size d - 1)) with (_frontIndex d + _size d - 1) by blia.
      done.
    + apply Hun. blia.
Qed.

Lemma grown_Clean d q :
  Inv d → _size d = buffer_length d → (1.1 <= q)%Q → Clean (grown d q).
Proof.
  intros HInv Hfull Hlo i.
  destruct (grown_Inv d q HInv Hfull Hlo) as ([_ Hsize'] & Hroom & Hlen).
  rewrite Hlen. cbn [grown _frontIndex _size _cyclicBuffer] in *.
  pose proof HInv as [_ Hsize].
  intros Hi Hun.
  assert (Hge : _size d <= i).
  { destruct (decide (_size d <= i)); [done|]. exfalso.
    apply (Hun i); [blia|]. rewrite fixIndex_small; blia. }
  rewrite array_get_lookup by blia.
  rewrite lookup_app_r by (rewrite slots_length; blia).
  rewrite lookup_replicate_2; [done|]. rewrite slots_length. blia.
Qed.

Lemma popFront_times_Clean (n : nat) d :
  Inv d → Z.of_nat n <= _size d → Clean d → Clean (popFront_times n d).
Proof.
  revert d. induction n as [|n IH]; intros d HInv Hn HClean; cbn [popFront_times];
    [done|].
  destruct (popFront_cases d HInv) as (HInv' & _ & _ & _ & Hpop).
  destruct Hpop as (r & _ & Hsz & _); [blia|].
  apply IH; [done|blia|].
  unfold exec. rewrite popFront_eq by blia. apply poppedFront_Clean; [done|blia|done].
Qed.

Lemma cleared_Clean d : Inv d → Clean d → Clean (exec clear d).
Proof.
  intros HInv HClean. pose proof HInv as [_ Hsize].
  unfold exec. rewrite clear_eq by done. cbn [snd].
  pose proof (popFront_times_Clean (Z.to_nat (_size d)) d HInv ltac:(blia) HClean) as HC.
  intros i Hi Hun. apply HC; [done|].
  destruct (popFront_times_facts (Z.to_nat (_size d)) d HInv ltac:(blia))
    as (_ & Hsz & _).
  intros k Hk. blia.
Qed.

Lemma run_op_Clean op d :
  Inv d → accepted (_capacityIncrementFactor d) → Clean d → Clean (run_op op d).
Proof.
  intros HInv Hacc HClean. destruct op as [item|item| | | | | |]; cbn [run_op].
  - unfold exec. rewrite pushFront_eq.
    destruct (increase_cases d HInv Hacc)
      as [[Hroom ->]|[(Hfull & q & Hq & Hlo & ->)|(Hfull & Hnan & ->)]]; cbn [snd].
    + by apply pushedFront_Clean.
    + destruct (grown_Inv d q HInv Hfull Hlo) as (HInv' & Hroom & _).
      apply pushedFront_Clean; [done|done|by apply grown_Clean].
    + done.
  - unfold exec. rewrite pushBack_eq.
    destruct (increase_cases d HInv Hacc)
      as [[Hroom ->]|[(Hfull & q & Hq & Hlo & ->)|(Hfull & Hnan & ->)]]; cbn [snd].
    + by apply pushedBack_Clean.
    + destruct (grown_Inv d q HInv Hfull Hlo) as (HInv' & Hroom & _).
      apply pushedBack_Clean; [done|done|by apply grown_Clean].
    + done.
  - destruct (decide (_size d = 0)) as [Hz|Hnz]; unfold exec.
    + by destruct (empty_throws d Hz) as (_ & _ & -> & _).
    + rewrite popFront_eq by done. by apply poppedFront_Clean.
  - destruct (decide (_size d = 0)) as [Hz|Hnz]; unfold exec.
    + by destruct (empty_throws d Hz) as (_ & _ & _ & ->).
    + rewrite popBack_eq by done. by apply poppedBack_Clean.
  - by apply cleared_Clean.
  - by rewrite getSnapshot_state.
  - by rewrite front_state.
  - by rewrite back_state.
Qed.

Lemma run_Clean ops d :
  Inv d → accepted (_capacityIncrementFactor d) → Clean d → Clean (run ops d).
Proof.
  revert d. induction ops as [|op ops IH]; intros d HInv Hacc HClean; cbn; [done|].
  destruct (run_op_Inv op d HInv Hacc) as (HInv' & Hfac & _).
  apply IH; [done|by rewrite Hfac|by apply run_op_Clean].
Qed.

Lemma constructor_Clean initialCapacity factor d :
  constructor initialCapacity factor = Return d → Clean d.
Proof.
  intros Hnew. apply constructor_Return in Hnew as (n & [Hn _] & _ & ->).
  intros i Hi _. unfold buffer_length in Hi. cbn in *.
  rewrite length_replicate in Hi.
  rewrite array_get_lookup, lookup_replicate_2 by blia. done.
Qed.

(** A clean buffer that holds nothing is a buffer of cleared slots. *)
Lemma Clean_empty d :
  Clean d → _size d = 0 →
  _cyclicBuffer d = replicate (length (_cyclicBuffer d)) None.
Proof.
  intros HClean Hz. apply list_eq. intros j.
  destruct (decide (j < length (_cyclicBuffer d))%nat) as [Hj|Hj].
  - rewrite lookup_replicate_2 by done.
    pose proof (HClean (Z.of_nat j)) as Hget.
    rewrite array_get_lookup, Nat2Z.id in Hget by blia.
    destruct (lookup_lt_is_Some_2 (_cyclicBuffer d) j Hj) as [v Hv].
    rewrite Hv in Hget |- *. cbn in Hget. rewrite Hget; [done|blia|].
    intros k Hk. blia.
  - rewrite !lookup_ge_None_2; [done| |]; rewrite ?length_replicate; blia.
Qed.

End Hygiene.

(** X7.  On a deque that the constructor returned, after any calls, every
    slot of the buffer outside the occupied region holds [undefined]: the
    buffer refers to no item that was popped or cleared. *)
Theorem vacated_slots_are_undefined {R : Rounding} {T}
    (initialCapacity factor : number) (d0 : SlimDeque T) (ops : list (Op T)) (i : Z) :
  constructor initialCapacity factor = Return d0 →
  let d := run ops d0 in
  0 <= i < buffer_length d →
  (∀ k : Z, 0 <= k < _size d → i ≠ (_frontIndex d + k) mod buffer_length d) →
  array_get (_cyclicBuffer d) i = None.
Proof.
  intros Hnew d Hi Hun.
  destruct (constructor_Inv _ _ _ Hnew) as (HInv0 & Hacc & _).
  destruct (run_Inv ops d0 HInv0 Hacc) as ([Hfront Hsize] & _). fold d in Hfront, Hsize.
  apply (run_Clean ops d0 HInv0 Hacc (constructor_Clean _ _ _ Hnew)); [done|].
  intros k Hk. fold d in Hk |- *. rewrite fixIndex_mod by lia. by apply Hun.
Qed.

(** X8.  On a deque that the constructor returned, after any calls, [clear]
    leaves the very object that the constructor builds for the current
    capacity and the same factor, apart from the increment count, which is
    kept: every slot cleared, [frontIndex = 0], [size = 0]. *)
Theorem clear_gives_new_deque {R : Rounding} {T}
    (initialCapacity factor : number) (d0 : SlimDeque T) (ops : list (Op T)) :
  constructor initialCapacity factor = Return d0 →
  let d := run ops d0 in
  ∃ fresh : SlimDeque T,
    constructor (of_Z (buffer_length d)) factor = Return fresh ∧
    exec clear d
    = set_numberOfCapacityIncrements (_numberOfCapacityIncrements d) fresh.
Proof.
  intros Hnew d.
  destruct (constructor_Inv _ _ _ Hnew) as (HInv0 & Hacc & _ & Hfac0).
  destruct (run_Inv ops d0 HInv0 Hacc) as (HInv & Hfac & _). fold d in HInv, Hfac.
  assert (HClean : Clean d)
    by exact (run_Clean ops d0 HInv0 Hacc (constructor_Clean _ _ _ Hnew)).
  destruct (cleared_facts d HInv) as (_ & Hsz & Hfront & Hlen & Hcnt & Hfac').
  pose proof (Clean_empty _ (cleared_Clean d HInv HClean) Hsz) as Hbuf.
  pose proof HInv as [Hf Hs].
  exists (mkSlimDeque (replicate (Z.to_nat (buffer_length d)) None) 0 0 0 factor).
  split.
  - unfold constructor.
    assert (Hnat : isNaturalNumber (of_Z (buffer_length d)) = true).
    { apply isNaturalNumber_Finite. rewrite Qfloor_Z. split; [lia|done]. }
    rewrite Hnat. cbn [negb].
    apply constructor_Return in Hnew as (_ & _ & Hval & _).
    unfold accepted in Hval. rewrite Hval.
    rewrite Array_new_of_Z by lia. unfold Array_fill. by rewrite length_replicate.
  - destruct (exec clear d) as [buf fr sz cnt fac] eqn:Hd.
    unfold buffer_length in *. cbn in *. subst fr sz cnt.
    unfold set_numberOfCapacityIncrements. cbn.
    rewrite Hbuf, Hfac', Hfac, Hfac0. f_equal. f_equal. lia.
Qed.

(** ** Capacity and the increment count *)

Section Capacity.

Context {R : Rounding} {T : Type}.
Implicit Types (this d : SlimDeque T) (item : T) (l : list T) (op : Op T).

(** A call made while there is room for what it pushes: no growth, whatever
    the factor is. *)
Lemma run_op_room op d l :
  Rep d l → (is_push op → _size d < buffer_length d) →
  Rep (run_op op d) (ref_op op l) ∧
  buffer_length (run_op op d) = buffer_length d ∧
  _numberOfCapacityIncrements (run_op op d) = _numberOfCapacityIncrements d ∧
  _capacityIncrementFactor (run_op op d) = _capacityIncrementFactor d.
Proof.
  intros HRep Hroom. pose proof HRep as [HInv Hslots].
  pose proof (Rep_size d l HRep) as Hsz.
  destruct op as [item|item| | | | | |]; cbn [run_op ref_op] in *.
  - specialize (Hroom I). unfold exec.
    rewrite pushFront_eq, not_full_no_growth by done. cbn [snd].
    repeat split; try done; try by apply pushedFront_Inv.
    + rewrite pushedFront_slots, Hslots by done. done.
    + by apply pushedFront_length.
  - specialize (Hroom I). unfold exec.
    rewrite pushBack_eq, not_full_no_growth by done. cbn [snd].
    repeat split; try done; try by apply pushedBack_Inv.
    + rewrite pushedBack_slots, Hslots, fmap_app by done. done.
    + by apply pushedBack_length.
  - destruct (popFront_cases d HInv) as (HInv' & Hfac & Hlen & Hcnt & Hpop).
    split; [|done]. split; [done|].
    destruct l as [|x l'].
    + destruct (empty_throws d Hsz) as (_ & _ & Hthrow & _).
      unfold exec. rewrite Hthrow. done.
    + destruct Hpop as (r & _ & _ & Heq); [cbn in Hsz; lia|].
      rewrite Heq in Hslots. by injection Hslots.
  - destruct (popBack_cases d HInv) as (HInv' & Hfac & Hlen & Hcnt & Hpop).
    split; [|done]. split; [done|].
    destruct l as [|x l' _] using rev_ind.
    + destruct (empty_throws d Hsz) as (_ & _ & _ & Hthrow).
      unfold exec. rewrite Hthrow. done.
    + destruct Hpop as (r & _ & _ & Heq); [rewrite length_app in Hsz; cbn in Hsz; lia|].
      rewrite Heq, fmap_app in Hslots. apply app_inj_tail in Hslots as [-> _].
      by rewrite removelast_last.
  - destruct (cleared_facts d HInv) as (HInv' & Hz & _ & Hlen & Hcnt & Hfac).
    split; [|done]. split; [done|]. unfold slots. by rewrite Hz.
  - by rewrite getSnapshot_state.
  - by rewrite front_state.
  - by rewrite back_state.
Qed.

Lemma ref_op_length op l :
  Z.of_nat (length (ref_op op l)) <= Z.of_nat (length l) + count_pushes [op].
Proof.
  destruct op; cbn; rewrite ?length_app; cbn; try lia.
  - destruct l; cbn; lia.
  - destruct l as [|x l' _] using rev_ind; [cbn; lia|].
    rewrite removelast_last, length_app. cbn. lia.
Qed.

Lemma count_pushes_cons op (ops : list (Op T)) :
  count_pushes (op :: ops) = count_pushes [op] + count_pushes ops ∧
  0 <= count_pushes ops ∧ (is_push op → count_pushes [op] = 1).
Proof.
  split; [destruct op; cbn; lia|]. split.
  - induction ops as [|[] ops IH]; cbn; lia.
  - destruct op; cbn; done.
Qed.

Lemma run_room (ops : list (Op T)) d l :
  Rep d l → _size d + count_pushes ops <= buffer_length d →
  Rep (run ops d) (ref_run ops l) ∧
  buffer_length (run ops d) = buffer_length d ∧
  _numberOfCapacityIncrements (run ops d) = _numberOfCapacityIncrements d ∧
  _capacityIncrementFactor (run ops d) = _capacityIncrementFactor d.
Proof.
  revert d l. induction ops as [|op ops IH]; intros d l HRep Hroom; [done|].
  destruct (count_pushes_cons op ops) as (Hcons & Hnn & Hone).
  destruct (run_op_room op d l HRep) as (HRep' & Hlen & Hcnt & Hfac).
  { intros Hp. specialize (Hone Hp). lia. }
  pose proof (ref_op_length op l) as Hbound.
  rewrite <- (Rep_size _ _ HRep), <- (Rep_size _ _ HRep') in Hbound.
  cbn [run ref_run fold_left].
  fold (run ops (run_op op d)). fold (ref_run ops (ref_op op l)).
  destruct (IH _ _ HRep') as (? & ? & ? & ?); [lia|].
  split; [done|]. split; [congruence|]. split; congruence.
Qed.

(** One call: the increment count goes up by at most one, the capacity does
    not go down, and the one changes exactly when the other does. *)
Lemma run_op_count op d :
  Inv d → accepted (_capacityIncrementFactor d) →
  _numberOfCapacityIncrements d <= _numberOfCapacityIncrements (run_op op d) ∧
  buffer_length d <= buffer_length (run_op op d) ∧
  (_numberOfCapacityIncrements (run_op op d) = _numberOfCapacityIncrements d ↔
   buffer_length (run_op op d) = buffer_length d).
Proof.
  intros HInv Hacc.
  assert (Hpush : ∀ (push : T → M T unit) pushed item,
    (∀ d1, push item d1 =
       match _increaseCapacityIfNecessary d1 with
       | (Return _, d2) => (Return tt, pushed item d2)
       | (Throw e, d2) => (Throw e, d2)
       | (OutOfFuel, d2) => (OutOfFuel, d2)
       end) →
    (∀ d1, Inv d1 → _size d1 < buffer_length d1 →
       buffer_length (pushed item d1) = buffer_length d1 ∧
       _numberOfCapacityIncrements (pushed item d1) = _numberOfCapacityIncrements d1) →
    _numberOfCapacityIncrements d <= _numberOfCapacityIncrements (exec (push item) d) ∧
    buffer_length d <= buffer_length (exec (push item) d) ∧
    (_numberOfCapacityIncrements (exec (push item) d) = _numberOfCapacityIncrements d ↔
     buffer_length (exec (push item) d) = buffer_length d)).
  { intros push pushed item Heq Hframe. unfold exec. rewrite Heq.
    destruct (increase_cases d HInv Hacc)
      as [[Hroom ->]|[(Hfull & q & Hq & Hlo & ->)|(Hfull & Hnan & ->)]]; cbn [snd].
    - destruct (Hframe d HInv Hroom) as [-> ->]. lia.
    - destruct (grown_Inv d q HInv Hfull Hlo) as (HInv' & Hroom & Hlen).
      destruct (Hframe _ HInv' Hroom) as [-> ->]. rewrite Hlen.
      pose proof (ceil_grows (buffer_length d) q ltac:(unfold Inv in *; lia) Hlo) as Hgrow.
      fold (grownCapacity d q) in Hgrow. cbn. lia.
    - lia. }
  destruct op as [item|item| | | | | |]; cbn [run_op].
  - apply (Hpush pushFront pushedFront); [intros; apply pushFront_eq|].
    intros d1 ? ?. by rewrite pushedFront_length.
  - apply (Hpush pushBack pushedBack); [intros; apply pushBack_eq|].
    intros d1 ? ?. by rewrite pushedBack_length.
  - destruct (popFront_cases d HInv) as (_ & _ & -> & -> & _). lia.
  - destruct (popBack_cases d HInv) as (_ & _ & -> & -> & _). lia.
  - destruct (cleared_facts d HInv) as (_ & _ & _ & -> & -> & _). lia.
  - rewrite getSnapshot_state by done. lia.
  - rewrite front_state. lia.
  - rewrite back_state. lia.
Qed.

Lemma run_count (ops : list (Op T)) d :
  Inv d → accepted (_capacityIncrementFactor d) →
  _numberOfCapacityIncrements d <= _numberOfCapacityIncrements (run ops d) ∧
  buffer_length d <= buffer_length (run ops d) ∧
  (_numberOfCapacityIncrements (run ops d) = _numberOfCapacityIncrements d ↔
   buffer_length (run ops d) = buffer_length d).
Proof.
  revert d. induction ops as [|op ops IH]; intros d HInv Hacc; [cbn; lia|].
  destruct (run_op_Inv op d HInv Hacc) as (HInv' & Hfac & _).
  destruct (run_op_count op d HInv Hacc) as (Hc1 & Hl1 & Hiff1).
  destruct (IH (run_op op d) HInv') as (Hc2 & Hl2 & Hiff2); [by rewrite Hfac|].
  cbn [run fold_left]. fold (run ops (run_op op d)). lia.
Qed.

End Capacity.

(** X9.  On a deque that the constructor returned, whatever factor it let
    through, calls that make no more pushes than the initial capacity cause
    no reallocation: the capacity stays the initial one, the increment count
    stays 0, and [getSnapshot] yields the reference deque's items. *)
Theorem no_growth_within_capacity {R : Rounding} {T}
    (initialCapacity factor : number) (d0 : SlimDeque T) (ops : list (Op T)) :
  constructor initialCapacity factor = Return d0 →
  count_pushes ops <= buffer_length d0 →
  let d := run ops d0 in
  buffer_length d = buffer_length d0 ∧
  _numberOfCapacityIncrements d = 0 ∧
  getSnapshot d = (Return (Some <$> ref_run ops []), d).
Proof.
  intros Hnew Hroom d.
  destruct (constructor_Inv _ _ _ Hnew) as (_ & _ & HRep0 & _).
  apply constructor_Return in Hnew as Hd0. destruct Hd0 as (n & _ & _ & Hd0).
  destruct (run_room ops d0 [] HRep0) as ([HInv Hslots] & Hlen & Hcnt & _).
  { rewrite Hd0 at 1. cbn. lia. }
  fold d in HInv, Hslots, Hlen, Hcnt.
  split; [done|]. split; [rewrite Hcnt, Hd0; done|].
  by rewrite getSnapshot_spec, Hslots.
Qed.

(** X10.  On a deque that the constructor returned, over any further calls
    the increment count never goes down, and it is unchanged exactly when
    the capacity is: [numberOfCapacityIncrements] tells whether the buffer
    was ever reallocated. *)
Theorem increments_track_capacity {R : Rounding} {T}
    (initialCapacity factor : number) (d0 : SlimDeque T) (ops1 ops2 : list (Op T)) :
  constructor initialCapacity factor = Return d0 →
  let d1 := run ops1 d0 in
  let d2 := run (ops1 ++ ops2) d0 in
  _numberOfCapacityIncrements d1 <= _numberOfCapacityIncrements d2 ∧
  (_numberOfCapacityIncrements d2 = _numberOfCapacityIncrements d1 ↔
   buffer_length d2 = buffer_length d1) ∧
  (_numberOfCapacityIncrements d1 = 0 ↔ buffer_length d1 = buffer_length d0).
Proof.
  intros Hnew d1 d2. subst d1 d2. rewrite run_app.
  destruct (constructor_Inv _ _ _ Hnew) as (HInv0 & Hacc & _).
  destruct (run_Inv ops1 d0 HInv0 Hacc) as (HInv1 & Hfac & _).
  destruct (run_count ops2 (run ops1 d0) HInv1) as (Hc & _ & Hiff); [by rewrite Hfac|].
  destruct (run_count ops1 d0 HInv0 Hacc) as (_ & _ & Hiff0).
  apply constructor_Return in Hnew as (n & _ & _ & Hd0).
  assert (Hz : _numberOfCapacityIncrements d0 = 0) by (by rewrite Hd0).
  rewrite Hz in Hiff0. done.
Qed.

(** X11.  A push on a deque state whose factor passed the validation either
    returns, with the size one more, or throws [RangeError] and leaves the
    object as it was; it throws exactly when the buffer is full and the
    factor is NaN. *)
Theorem push_fails_only_full_NaN {R : Rounding} {T} (push : T → M T unit) (item : T)
    (d : SlimDeque T) :
  push = pushBack ∨ push = pushFront →
  Inv d → accepted (_capacityIncrementFactor d) →
  (_size d = buffer_length d ∧ _capacityIncrementFactor d = NaN →
   push item d = (Throw RangeError, d)) ∧
  (¬ (_size d = buffer_length d ∧ _capacityIncrementFactor d = NaN) →
   push item d = (Return tt, exec (push item) d) ∧
   _size (exec (push item) d) = _size d + 1).
Proof.
  intros Hpush HInv Hacc. unfold exec.
  assert (Heq : ∃ pushed : T → SlimDeque T → SlimDeque T,
    (∀ d1, _size (pushed item d1) = _size d1 + 1) ∧
    push item d =
    match _increaseCapacityIfNecessary d with
    | (Return _, d1) => (Return tt, pushed item d1)
    | (Throw e, d1) => (Throw e, d1)
    | (OutOfFuel, d1) => (OutOfFuel, d1)
    end).
  { destruct Hpush as [-> | ->].
    - exists pushedBack. split; [done|apply pushBack_eq].
    - exists pushedFront. split; [done|apply pushFront_eq]. }
  destruct Heq as (pushed & Hsz & ->).
  destruct (increase_cases d HInv Hacc)
    as [[Hroom ->]|[(Hfull & q & Hq & Hlo & ->)|(Hfull & Hnan & ->)]]; cbn [snd].
  - split; [intros [? _]; lia|]. intros _. split; [done|apply Hsz].
  - split; [intros [_ ?]; congruence|]. intros _. split; [done|]. by rewrite Hsz.
  - split; [done|]. intros Hnot. by destruct Hnot.
Qed.

(** X12.  Whenever the constructor returns, the capacity asked for is a
    positive integer [n] and the factor is in [[1.1, 2]] or is NaN; the
    deque has capacity [n], [n] slots all [undefined], [frontIndex = 0],
    [size = 0] and an increment count of 0; it is empty and its snapshot is
    the empty array. *)
Theorem constructor_postcondition {T} (initialCapacity factor : number)
    (d : SlimDeque T) :
  constructor initialCapacity factor = Return d →
  ∃ n : Z,
    is_positive_integer initialCapacity n ∧
    (in_range factor ∨ factor = NaN) ∧
    d = mkSlimDeque (replicate (Z.to_nat n) None) 0 0 0 factor ∧
    capacity d = (Return n, d) ∧
    isEmpty d = (Return true, d) ∧
    getSnapshot d = (Return [], d).
Proof.
  intros Hnew.
  destruct (constructor_Inv _ _ _ Hnew) as (HInv & _).
  apply constructor_Return in Hnew as (n & Hpos & Hacc & ->).
  exists n. pose proof Hpos as [Hn _].
  split; [done|]. split; [destruct (accepted_cases _ Hacc); auto|].
  split; [done|]. split.
  - unfold capacity, read, buffer_length. cbn. rewrite length_replicate.
    by rewrite Z2Nat.id by lia.
  - split; [done|]. by rewrite getSnapshot_spec.
Qed.

(** ** The traversal and the snapshot, position by position *)

Section Positions.

Context {T : Type}.
Implicit Types (this d : SlimDeque T).

Lemma fmap_fixIndex_mod {A} (g : Z → A) len front (n : nat) :
  0 <= front < len → Z.of_nat n <= len →
  (λ k : nat, g (fixIndex len (front + Z.of_nat k))) <$> seq 0 n
  = (λ k : nat, g ((front + Z.of_nat k) mod len)) <$> seq 0 n.
Proof.
  intros Hfront Hn. apply list_eq. intros j. rewrite !list_lookup_fmap.
  destruct (seq 0 n !! j) as [k|] eqn:Hk; [|done]. cbn.
  apply lookup_seq in Hk as [-> Hj]. rewrite fixIndex_mod by lia. done.
Qed.

End Positions.

(** X13.  On a deque state of the data model, [_traverseFromFrontToBack]
    returns after calling its callback exactly [size] times, with the indices
    [(frontIndex + k) mod capacity] for [k = 0, ..., size - 1] in this order:
    each occupied slot once, front to back. *)
Theorem traversal_visits_front_to_back {T} (d : SlimDeque T) :
  Inv d →
  _traverseFromFrontToBack record_index ([], d)
  = Some ((λ k : nat, (_frontIndex d + Z.of_nat k) mod buffer_length d)
            <$> seq 0 (Z.to_nat (_size d)), d).
Proof.
  intros [Hfront Hsize]. unfold _traverseFromFrontToBack. cbn [snd].
  pose (I := fun (k : Z) (w : list Z * SlimDeque T) =>
    snd w = d ∧
    fst w = (λ j : nat, fixIndex (buffer_length d) (_frontIndex d + Z.of_nat j))
              <$> seq 0 (Z.to_nat k)).
  destruct (traverse_loop_inv record_index I (_frontIndex d) (_size d) (buffer_length d))
    with (fuel := Z.to_nat (_size d)) (k := 0) (w := (@nil Z, d))
    as ([seen d'] & Hrun & Hd & Hseen); try lia.
  - intros k w (-> & _). done.
  - intros k [seen d'] Hk (Hd & Hseen). cbn [fst snd] in *. subst d' seen.
    unfold I, record_index; cbn [fst snd]. split; [done|].
    replace (Z.to_nat (k + 1)) with (S (Z.to_nat k)) by lia.
    rewrite seq_S, fmap_app. cbn. repeat f_equal. lia.
  - done.
  - rewrite Z.add_0_r, fixIndex_small in Hrun by lia. rewrite Hrun.
    cbn [fst snd] in *. subst d' seen.
    rewrite (fmap_fixIndex_mod (λ i, i)) by lia. done.
Qed.

(** X14.  On a deque state of the data model, [getSnapshot] returns without
    changing the object; the array has [size] entries and its [k]-th entry is
    the slot at index [(frontIndex + k) mod capacity] of the buffer. *)
Theorem getSnapshot_by_position {T} (d : SlimDeque T) :
  Inv d →
  getSnapshot d
  = (Return ((λ k : nat, array_get (_cyclicBuffer d)
                           ((_frontIndex d + Z.of_nat k) mod buffer_length d))
               <$> seq 0 (Z.to_nat (_size d))), d) ∧
  ∀ a, fst (getSnapshot d) = Return a → Z.of_nat (length a) = _size d.
Proof.
  intros HInv. pose proof HInv as [Hfront Hsize].
  rewrite getSnapshot_spec by done. unfold slots, slot.
  rewrite (fmap_fixIndex_mod (array_get (_cyclicBuffer d))) by lia.
  split; [done|]. intros a [= <-]. rewrite length_fmap, length_seq. lia.
Qed.

(** ** Sequences of pushes, and the rolling window *)

Section Sequences.

Context {R : Rounding} {T : Type}.
Implicit Types (this d : SlimDeque T) (item : T) (xs : list T).

Lemma run_pushBacks xs d :
  Inv d → in_range (_capacityIncrementFactor d) →
  Inv (run (PushBack <$> xs) d) ∧
  slots (run (PushBack <$> xs) d) = slots d ++ (Some <$> xs).
Proof.
  revert d. induction xs as [|x xs IH]; intros d HInv Hin; cbn.
  - by rewrite app_nil_r.
  - fold (run (PushBack <$> xs) (exec (pushBack x) d)).
    destruct (pushBack_cases x d HInv (in_range_accepted _ Hin))
      as (HInv' & Hfac & _ & Hpush).
    destruct (Hpush Hin) as (_ & _ & Hslots).
    destruct (IH _ HInv') as (? & ->); [by rewrite Hfac|].
    split; [done|]. rewrite Hslots, <- app_assoc. done.
Qed.

Lemma run_pushFronts xs d :
  Inv d → in_range (_capacityIncrementFactor d) →
  Inv (run (PushFront <$> xs) d) ∧
  slots (run (PushFront <$> xs) d) = (Some <$> rev xs) ++ slots d.
Proof.
  revert d. induction xs as [|x xs IH]; intros d HInv Hin; cbn; [done|].
  fold (run (PushFront <$> xs) (exec (pushFront x) d)).
  destruct (pushFront_cases x d HInv (in_range_accepted _ Hin))
    as (HInv' & Hfac & _ & Hpush).
  destruct (Hpush Hin) as (_ & _ & Hslots).
  destruct (IH _ HInv') as (? & ->); [by rewrite Hfac|].
  split; [done|]. rewrite Hslots, fmap_app, <- app_assoc. done.
Qed.

End Sequences.

(** X15.  On a deque state of the data model, pushing the items of a list one
    after the other at the back appends the list to the contents, in its
    order; pushing them at the front puts the reversed list before the
    contents (the last item pushed is the new front). *)
Theorem pushes_of_a_list {R : Rounding} {T} (xs : list T) (d : SlimDeque T) :
  Inv d → in_range (_capacityIncrementFactor d) →
  fst (getSnapshot (run (PushBack <$> xs) d))
  = Return (slots d ++ (Some <$> xs)) ∧
  fst (getSnapshot (run (PushFront <$> xs) d))
  = Return ((Some <$> rev xs) ++ slots d) ∧
  fst (getSnapshot d) = Return (slots d).
Proof.
  intros HInv Hin.
  destruct (run_pushBacks xs d HInv Hin) as [HInvB HslotsB].
  destruct (run_pushFronts xs d HInv Hin) as [HInvF HslotsF].
  rewrite !getSnapshot_spec by done. cbn [fst]. by rewrite HslotsB, HslotsF.
Qed.

(** X16.  The rolling window: on a non-empty deque state of the data model,
    whatever its factor, removing an item at one end and then pushing one at
    the other end returns and never reallocates, even when the buffer was
    full: capacity, increment count and size are unchanged, and the contents
    have moved by one. *)
Theorem rolling_window_never_grows {R : Rounding} {T} (item : T) (d : SlimDeque T) :
  Inv d → _size d ≠ 0 →
  let dB := exec (pushBack item) (exec popFront d) in
  let dF := exec (pushFront item) (exec popBack d) in
  pushBack item (exec popFront d) = (Return tt, dB) ∧
  pushFront item (exec popBack d) = (Return tt, dF) ∧
  buffer_length dB = buffer_length d ∧ buffer_length dF = buffer_length d ∧
  _numberOfCapacityIncrements dB = _numberOfCapacityIncrements d ∧
  _numberOfCapacityIncrements dF = _numberOfCapacityIncrements d ∧
  _size dB = _size d ∧ _size dF = _size d ∧
  slots dB = tail (slots d) ++ [Some item] ∧
  slots dF = Some item :: removelast (slots d).
Proof.
  intros HInv Hnz dB dF. subst dB dF. pose proof HInv as [Hfront Hsize].
  destruct (popFront_cases d HInv) as (HInvF & _ & HlenF & HcntF & HpF).
  destruct (HpF Hnz) as (rF & _ & HszF & HslF).
  destruct (popBack_cases d HInv) as (HInvB & _ & HlenB & HcntB & HpB).
  destruct (HpB Hnz) as (rB & _ & HszB & HslB).
  assert (HroomF : _size (exec popFront d) < buffer_length (exec popFront d)) by lia.
  assert (HroomB : _size (exec popBack d) < buffer_length (exec popBack d)) by lia.
  remember (exec popFront d) as d1 eqn:Hd1.
  remember (exec popBack d) as d2 eqn:Hd2.
  unfold exec.
  rewrite pushBack_eq, pushFront_eq, !not_full_no_growth by done. cbn [snd].
  rewrite pushedBack_length, pushedFront_length, pushedBack_slots, pushedFront_slots
    by done.
  replace (tail (slots d)) with (slots d1) by (by rewrite HslF).
  replace (removelast (slots d)) with (slots d2) by (by rewrite HslB, removelast_last).
  cbn. repeat split; try done; lia.
Qed.

(** X17.  How far one growth goes: a push on a full deque state of the data
    model makes the capacity more than the old one and less than twice the
    old one, enlarged by the unit roundoff, plus one. *)
Theorem growth_at_most_doubles {R : Rounding} {T} (push : T → M T unit) (item : T)
    (d : SlimDeque T) :
  push = pushBack ∨ push = pushFront →
  Inv d → in_range (_capacityIncrementFactor d) → _size d = buffer_length d →
  let newCapacity := buffer_length (exec (push item) d) in
  buffer_length d < newCapacity ∧
  (inject_Z newCapacity < inject_Z (2 * buffer_length d) * (1 + unit_roundoff) + 1)%Q.
Proof.
  intros Hpush HInv (q & Hq & Hlo & Hhi) Hfull newCapacity. subst newCapacity.
  pose proof HInv as [Hfront Hsize].
  destruct (grown_Inv d q HInv Hfull Hlo) as (HInv' & Hroom & Hlen).
  assert (Hnew : buffer_length (exec (push item) d) = grownCapacity d q).
  { unfold exec. destruct Hpush as [-> | ->].
    - rewrite pushBack_eq, (full_growth d q) by done. cbn [snd].
      by rewrite pushedBack_length.
    - rewrite pushFront_eq, (full_growth d q) by done. cbn [snd].
      by rewrite pushedFront_length. }
  rewrite Hnew. unfold grownCapacity.
  split; [apply ceil_grows; [lia|done]|].
  set (x := (inject_Z (buffer_length d) * q)%Q).
  assert (Hcap : (1 <= inject_Z (buffer_length d))%Q).
  { change 1%Q with (inject_Z 1). rewrite <- Zle_Qle. lia. }
  assert (Hx1 : (1 <= x)%Q).
  { apply Qmult_le_1_compat; [done|].
    apply Qle_trans with (y := 1.1%Q); [done|exact Hlo]. }
  destruct (rnd_accurate x Hx1) as [_ Hup].
  assert (Hx2 : (x <= inject_Z (2 * buffer_length d))%Q).
  { unfold x. rewrite inject_Z_mult, (Qmult_comm (inject_Z 2)).
    apply Qmult_le_l; [|exact Hhi].
    apply Qlt_le_trans with (y := 1%Q); done. }
  pose proof (Qceiling_lt (rnd x)) as Hceil.
  unfold Z.sub in Hceil. rewrite inject_Z_plus in Hceil.
  apply Qlt_le_trans with (y := (rnd x + 1)%Q).
  - apply Qplus_lt_l with (z := inject_Z (-1)).
    rewrite <- Qplus_assoc. change (1 + inject_Z (-1))%Q with 0%Q.
    rewrite Qplus_0_r. exact Hceil.
  - apply Qplus_le_l. apply Qle_trans with (y := (x * (1 + unit_roundoff))%Q); [done|].
    apply Qmult_le_compat_r; [done|]. done.
Qed.

(** * The round trip *)

Section RoundTrip.

Context {R : Rounding} {T : Type}.
Implicit Types (this d : SlimDeque T) (l : list T) (op : Op T) (ops : list (Op T)).

Lemma call_state op d : snd (call op d) = run_op op d.
Proof.
  destruct op; cbn [call run_op]; unfold exec, bind, ret;
    match goal with |- context [?m d] => destruct (m d) as [[?|?|] ?] end; done.
Qed.

Lemma run_trace_cons op ops d :
  run_trace (op :: ops) d
  = (fst (call op d) :: fst (run_trace ops (run_op op d)),
     snd (run_trace ops (run_op op d))).
Proof.
  cbn [run_trace]. rewrite <- call_state.
  destruct (call op d) as [o d1]. cbn [fst snd].
  destruct (run_trace ops d1) as [os d2]. done.
Qed.

Lemma run_trace_state ops d : snd (run_trace ops d) = run ops d.
Proof.
  revert d. induction ops as [|op ops IH]; intros d; [done|].
  rewrite run_trace_cons. cbn [snd]. by rewrite IH.
Qed.

(** Pushes on a deque of the data model all return. *)
Lemma trace_pushes ops d l :
  Forall is_push ops → Rep d l → in_range (_capacityIncrementFactor d) →
  fst (run_trace ops d) = replicate (length ops) (Return Done) ∧
  Rep (run ops d) (ref_run ops l) ∧
  _capacityIncrementFactor (run ops d) = _capacityIncrementFactor d.
Proof.
  intros Hops. revert d l.
  induction Hops as [|op ops Hop _ IH]; intros d l HRep Hin; [done|].
  pose proof HRep as [HInv _]. pose proof (in_range_accepted _ Hin) as Hacc.
  destruct (run_op_Inv op d HInv Hacc) as (_ & Hfac & _).
  destruct (IH (run_op op d) (ref_op op l) (run_op_Rep op d l HRep Hin))
    as (Htrace & HRep' & Hfac'); [by rewrite Hfac|].
  rewrite run_trace_cons. cbn [fst length replicate run ref_run fold_left].
  fold (run ops (run_op op d)). fold (ref_run ops (ref_op op l)).
  split; [|split; [done|congruence]].
  rewrite Htrace. f_equal.
  destruct op as [item|item| | | | | |]; try done; cbn [call]; unfold bind, ret.
  - destruct (pushFront_cases item d HInv Hacc) as (_ & _ & _ & Hpush).
    destruct (Hpush Hin) as (-> & _). done.
  - destruct (pushBack_cases item d HInv Hacc) as (_ & _ & _ & Hpush).
    destruct (Hpush Hin) as (-> & _). done.
Qed.

(** The reference deque after pushes holds the items pushed, and no other. *)
Lemma ref_pushes_items ops l :
  Forall is_push ops → ref_run ops l ≡ₚ pushed_items ops ++ l.
Proof.
  intros Hops. revert l.
  induction Hops as [|op ops Hop _ IH]; intros l; [done|].
  cbn [ref_run fold_left]. fold (ref_run ops (ref_op op l)). rewrite IH.
  destruct op as [item|item| | | | | |]; try done; cbn.
  - by rewrite Permutation_middle.
  - rewrite (Permutation_app_comm l [item]). cbn. by rewrite Permutation_middle.
Qed.

Lemma pushed_items_length ops :
  Forall is_push ops → length (pushed_items ops) = length ops.
Proof.
  intros Hops. unfold pushed_items.
  induction Hops as [|op ops Hop _ IH]; [done|].
  destruct op; try done; cbn; by rewrite IH.
Qed.

(** Pops on a deque that holds at least as many items all return an item,
    and the items returned are items that were held. *)
Lemma trace_pops ops d l :
  Forall is_pop ops → Rep d l → in_range (_capacityIncrementFactor d) →
  (length ops <= length l)%nat →
  ∃ popped : list T,
    fst (run_trace ops d) = (λ x, Return (Item (Some x))) <$> popped ∧
    Rep (run ops d) (ref_run ops l) ∧
    popped ++ ref_run ops l ≡ₚ l.
Proof.
  intros Hops. revert d l.
  induction Hops as [|op ops Hop _ IH]; intros d l HRep Hin Hlen.
  - exists []. done.
  - pose proof HRep as [HInv _]. pose proof (in_range_accepted _ Hin) as Hacc.
    pose proof (Rep_size d l HRep) as Hsz.
    destruct (run_op_Inv op d HInv Hacc) as (_ & Hfac & _).
    pose proof (run_op_Rep op d l HRep Hin) as HRep1.
    cbn [length] in Hlen.
    assert (Hstep : ∃ x, fst (call op d) = Return (Item (Some x)) ∧
              x :: ref_op op l ≡ₚ l ∧ (length ops <= length (ref_op op l))%nat).
    { destruct op as [item|item| | | | | |]; try done; cbn [call ref_op].
      - destruct l as [|x l']; [cbn in Hlen; lia|]. exists x.
        unfold bind, ret. rewrite popFront_eq by (cbn in Hsz; lia).
        rewrite (Rep_front_value d x l') by done.
        split; [done|]. split; [done|]. cbn in *. lia.
      - destruct l as [|x l' _] using rev_ind; [cbn in Hlen; lia|]. exists x.
        rewrite length_app in Hsz, Hlen. cbn in Hsz, Hlen.
        unfold bind, ret. rewrite popBack_eq by lia.
        rewrite (Rep_back_value d x l') by done.
        rewrite removelast_last.
        split; [done|]. split; [by rewrite Permutation_cons_append|lia]. }
    destruct Hstep as (x & Hcall & Hperm & Hlen').
    destruct (IH (run_op op d) (ref_op op l) HRep1) as (popped & Htrace & HRep' & Hperm');
      [by rewrite Hfac|done|].
    exists (x :: popped). rewrite run_trace_cons.
    cbn [fst run ref_run fold_left fmap list_fmap].
    fold (run ops (run_op op d)). fold (ref_run ops (ref_op op l)).
    split; [by rewrite Hcall, Htrace|]. split; [done|].
    cbn. by rewrite Hperm'.
Qed.

End RoundTrip.

(** C9.  From an empty deque state of the data model, N pushes in any mix of
    [pushFront] and [pushBack] followed by N pops in any mix of [popFront] and
    [popBack]: every push returns and the size after them is N; every pop
    returns an item, never [undefined] and never an exception, and the items
    popped are the items pushed, each as many times; the deque ends with
    [size = 0] and [isEmpty = true].  The round trip is not what brings
    [frontIndex] back to 0: a [clear] after it does, while
    [pushFront(x); popBack()] on a new deque of capacity 2 ends with
    [frontIndex = 1]. *)
Theorem push_pop_round_trip {R : Rounding} {T} (d : SlimDeque T) (pushes pops : list (Op T)) :
  Inv d → in_range (_capacityIncrementFactor d) → _size d = 0 →
  Forall is_push pushes → Forall is_pop pops → length pushes = length pops →
  let d1 := run pushes d in
  let d' := run (pushes ++ pops) d in
  run_trace pushes d = (replicate (length pushes) (Return Done), d1) ∧
  _size d1 = Z.of_nat (length pushes) ∧
  fst (isEmpty d1) = Return (bool_decide (pushes = [])) ∧
  (∃ popped : list T,
     run_trace pops d1 = ((λ x, Return (Item (Some x))) <$> popped, d') ∧
     popped ≡ₚ pushed_items pushes) ∧
  _size d' = 0 ∧ isEmpty d' = (Return true, d') ∧
  _frontIndex (exec clear d') = 0 ∧
  (∀ x : T, ∃ fresh,
     constructor (Finite 2) (Finite 1.5) = Return fresh ∧
     _size (run [PushFront x; PopBack] fresh) = 0 ∧
     _frontIndex (run [PushFront x; PopBack] fresh) = 1).
Proof.
  intros HInv Hin Hempty Hpushes Hpops Hlen d1 d'. subst d1 d'. rewrite run_app.
  assert (HRep0 : Rep d []).
  { split; [done|]. unfold slots. by rewrite Hempty. }
  destruct (trace_pushes pushes d [] Hpushes HRep0 Hin) as (Htrace1 & HRep1 & Hfac1).
  pose proof (ref_pushes_items pushes [] Hpushes) as Hitems. rewrite app_nil_r in Hitems.
  assert (Hlen1 : length (ref_run pushes []) = length pushes).
  { rewrite Hitems. by apply pushed_items_length. }
  pose proof (Rep_size _ _ HRep1) as Hsz1. rewrite Hlen1 in Hsz1.
  destruct (trace_pops pops (run pushes d) _ Hpops HRep1) as (popped & Htrace2 & HRep2 & Hperm);
    [by rewrite Hfac1|lia|].
  assert (Hnil : ref_run pops (ref_run pushes []) = []).
  { apply (f_equal length) in Htrace2. apply Permutation_length in Hperm.
    rewrite length_fmap in Htrace2. rewrite length_app in Hperm.
    assert (Hn : length (fst (run_trace pops (run pushes d))) = length pops).
    { clear. generalize (run pushes d). induction pops as [|op ops IH]; intros d0; [done|].
      rewrite run_trace_cons. cbn. by rewrite IH. }
    apply length_zero_iff_nil. lia. }
  rewrite Hnil, app_nil_r in Hperm. rewrite Hnil in HRep2.
  pose proof (Rep_size _ _ HRep2) as Hz. cbn in Hz. destruct HRep2 as [HInv2 _].
  split; [|split; [|split; [|split; [|split; [|split; [|split]]]]]].
  - by rewrite (surjective_pairing (run_trace pushes d)), Htrace1, run_trace_state.
  - done.
  - unfold isEmpty, read. cbn [fst]. f_equal. rewrite Hsz1.
    destruct pushes; done.
  - exists popped. split; [|by rewrite Hperm, Hitems].
    by rewrite (surjective_pairing (run_trace pops (run pushes d))), Htrace2,
      run_trace_state.
  - done.
  - unfold isEmpty, read. by rewrite Hz.
  - by destruct (cleared_facts _ HInv2) as (_ & _ & ? & _).
  - intros x. eexists. split; [reflexivity|]. split; reflexivity.
Qed.

(** * Instances

    Each statement above that has premises, applied to a concrete deque, on
    the machine whose products are exact. *)

#[local] Existing Instance exact_Rounding.


Lemma in_range_Finite (q : Q) :
  Qle_bool 1.1 q = true → Qle_bool q 2 = true → in_range (Finite q).
Proof.
  intros Hlo Hhi. exists q.
  split; [reflexivity|]. split; by apply Qle_bool_iff.
Defined.

Lemma Inv_by_computation {T} (d : SlimDeque T) :
  (0 <=? _frontIndex d) && (_frontIndex d <? buffer_length d)
  && (0 <=? _size d) && (_size d <=? buffer_length d) = true →
  Inv d.
Proof.
  intros H. rewrite !Bool.andb_true_iff in H. destruct H as [[[H1 H2] H3] H4].
  unfold Inv. lia.
Defined.

Lemma getSnapshot_refines_reference_witness :
  constructor (Finite 1) (Finite 1.1) = Return fresh_1 ∧
  in_range (Finite 1.1) ∧
  getSnapshot (run sample_calls fresh_1)
  = (Return (Some <$> ref_run sample_calls []), run sample_calls fresh_1) ∧
  Z.of_nat (length (Some <$> ref_run sample_calls []))
  = _size (run sample_calls fresh_1).
Proof.
  assert (Hnew : constructor (Finite 1) (Finite 1.1) = Return fresh_1) by reflexivity.
  assert (Hin : in_range (Finite 1.1)) by (apply in_range_Finite; reflexivity).
  split; [exact Hnew|]. split; [exact Hin|].
  exact (getSnapshot_refines_reference _ _ _ sample_calls Hnew Hin).
Defined.

Lemma indices_within_bounds_witness :
  constructor (Finite 1) (Finite 1.1) = Return fresh_1 ∧
  0 <= _size (run (sample_calls ++ [Clear]) fresh_1)
    <= buffer_length (run (sample_calls ++ [Clear]) fresh_1) ∧
  0 <= _frontIndex (run (sample_calls ++ [Clear]) fresh_1)
    < buffer_length (run (sample_calls ++ [Clear]) fresh_1).
Proof.
  assert (Hnew : constructor (Finite 1) (Finite 1.1) = Return fresh_1) by reflexivity.
  split; [exact Hnew|].
  exact (proj2 (indices_within_bounds _ _ _ (sample_calls ++ [Clear]) Hnew)).
Defined.

Lemma push_growth_trigger_witness :
  Inv wrapped_full ∧ in_range (_capacityIncrementFactor wrapped_full) ∧
  _size wrapped_full = buffer_length wrapped_full ∧
  pushFront 7 wrapped_full = (Return tt, exec (pushFront 7) wrapped_full) ∧
  _numberOfCapacityIncrements (exec (pushFront 7) wrapped_full) = 4 + 1 ∧
  of_Z (buffer_length (exec (pushFront 7) wrapped_full))
  = Math_ceil (num_mul (of_Z 3) (Finite 1.5)).
Proof.
  assert (HInv : Inv wrapped_full) by (apply Inv_by_computation; reflexivity).
  assert (Hin : in_range (_capacityIncrementFactor wrapped_full))
    by (apply in_range_Finite; reflexivity).
  assert (Hfull : _size wrapped_full = buffer_length wrapped_full) by reflexivity.
  split; [exact HInv|]. split; [exact Hin|]. split; [exact Hfull|].
  destruct (push_growth_trigger pushFront 7 wrapped_full (or_intror eq_refl) HInv Hin)
    as (Hret & Hgrow & _).
  split; [exact Hret|]. exact (Hgrow Hfull).
Defined.

Lemma growth_relocates_to_front_witness :
  Inv wrapped_full ∧ in_range (_capacityIncrementFactor wrapped_full) ∧
  buffer_length wrapped_full <= _size wrapped_full ∧
  _frontIndex (exec _increaseCapacityIfNecessary wrapped_full) = 0 ∧
  slots (exec _increaseCapacityIfNecessary wrapped_full) = slots wrapped_full.
Proof.
  assert (HInv : Inv wrapped_full) by (apply Inv_by_computation; reflexivity).
  assert (Hin : in_range (_capacityIncrementFactor wrapped_full))
    by (apply in_range_Finite; reflexivity).
  assert (Hfull : buffer_length wrapped_full <= _size wrapped_full)
    by (apply Z.leb_le; reflexivity).
  split; [exact HInv|]. split; [exact Hin|]. split; [exact Hfull|].
  destruct (growth_relocates_to_front wrapped_full HInv Hin Hfull)
    as (_ & Hfront & _ & _ & _ & Hslots & _).
  split; [exact Hfront|exact Hslots].
Defined.

Lemma growth_makes_progress_witness :
  1 <= 1 ∧ in_range (Finite 1.1) ∧
  Inv (mkSlimDeque [Some 5] 0 1 0 (Finite 1.1)) ∧
  in_range (_capacityIncrementFactor (mkSlimDeque [Some 5] 0 1 0 (Finite 1.1))) ∧
  _size (mkSlimDeque [Some 5] 0 1 0 (Finite 1.1))
  = buffer_length (mkSlimDeque [Some 5] 0 1 0 (Finite 1.1)) ∧
  constructor (Finite 1) (Finite 1.1) = Return fresh_1 ∧
  (∃ newCapacity : Z,
     Math_ceil (num_mul (of_Z 1) (Finite 1.1)) = of_Z newCapacity ∧
     1 < newCapacity ∧
     _increaseCapacityIfNecessary (mkSlimDeque [Some 5] 0 1 0 (Finite 1.1))
     = (Return tt,
        exec _increaseCapacityIfNecessary (mkSlimDeque [Some 5] 0 1 0 (Finite 1.1))) ∧
     buffer_length
       (exec _increaseCapacityIfNecessary (mkSlimDeque [Some 5] 0 1 0 (Finite 1.1)))
     = newCapacity ∧
     buffer_length (exec (pushBack 7) (mkSlimDeque [Some 5] 0 1 0 (Finite 1.1)))
     = newCapacity ∧
     buffer_length (exec (pushFront 7) (mkSlimDeque [Some 5] 0 1 0 (Finite 1.1)))
     = newCapacity) ∧
  buffer_length (run sample_calls fresh_1)
  <= buffer_length (run (sample_calls ++ [PushBack 11; Clear]) fresh_1).
Proof.
  assert (Hcap : 1 <= 1) by (apply Z.leb_le; reflexivity).
  assert (Hin : in_range (Finite 1.1)) by (apply in_range_Finite; reflexivity).
  assert (HInv : Inv (mkSlimDeque [Some 5] 0 1 0 (Finite 1.1)))
    by (apply Inv_by_computation; reflexivity).
  assert (Hnew : constructor (Finite 1) (Finite 1.1) = Return fresh_1) by reflexivity.
  split; [exact Hcap|]. split; [exact Hin|]. split; [exact HInv|].
  split; [exact Hin|]. split; [reflexivity|]. split; [exact Hnew|].
  destruct (growth_makes_progress 1 (Finite 1.1) (mkSlimDeque [Some 5] 0 1 0 (Finite 1.1))
              7 _ _ fresh_1 sample_calls [PushBack 11; Clear]
              Hcap Hin HInv Hin eq_refl Hnew) as (_ & H2 & H3 & _).
  split; [exact H2|exact H3].
Defined.

Lemma empty_deque_throws_unchanged_witness :
  _size fresh_1 = 0 ∧
  front fresh_1 = (Throw EmptyCollection, fresh_1) ∧
  back fresh_1 = (Throw EmptyCollection, fresh_1) ∧
  popFront fresh_1 = (Throw EmptyCollection, fresh_1) ∧
  popBack fresh_1 = (Throw EmptyCollection, fresh_1).
Proof.
  split; [reflexivity|]. exact (empty_deque_throws_unchanged fresh_1 eq_refl).
Defined.

Lemma clear_is_repeated_popFront_witness :
  Inv wrapped_full ∧
  clear wrapped_full = (Return tt, exec clear wrapped_full) ∧
  exec clear wrapped_full = popFront_until_empty_then_reset wrapped_full ∧
  _size (exec clear wrapped_full) = 0.
Proof.
  assert (HInv : Inv wrapped_full) by (apply Inv_by_computation; reflexivity).
  split; [exact HInv|].
  destruct (clear_is_repeated_popFront wrapped_full HInv) as (H1 & H2 & H3 & _).
  split; [exact H1|]. split; [exact H2|exact H3].
Defined.

Lemma push_pop_round_trip_witness :
  Inv fresh_1 ∧ in_range (_capacityIncrementFactor fresh_1) ∧ _size fresh_1 = 0 ∧
  Forall is_push [PushFront 1; PushBack 2; PushFront 3] ∧
  Forall (is_pop (T:=Z)) [PopBack; PopFront; PopBack] ∧
  run_trace [PushFront 1; PushBack 2; PushFront 3] fresh_1
  = (replicate 3 (Return Done), run [PushFront 1; PushBack 2; PushFront 3] fresh_1) ∧
  _size (run [PushFront 1; PushBack 2; PushFront 3] fresh_1) = 3 ∧
  (∃ popped : list Z,
     run_trace [PopBack; PopFront; PopBack]
       (run [PushFront 1; PushBack 2; PushFront 3] fresh_1)
     = ((λ x, Return (Item (Some x))) <$> popped,
        run ([PushFront 1; PushBack 2; PushFront 3] ++ [PopBack; PopFront; PopBack])
          fresh_1) ∧
     popped ≡ₚ [1; 2; 3]) ∧
  _size (run ([PushFront 1; PushBack 2; PushFront 3] ++ [PopBack; PopFront; PopBack])
           fresh_1) = 0.
Proof.
  assert (HInv : Inv fresh_1) by (apply Inv_by_computation; reflexivity).
  assert (Hin : in_range (_capacityIncrementFactor fresh_1))
    by (apply in_range_Finite; reflexivity).
  assert (Hpushes : Forall is_push [PushFront 1; PushBack 2; PushFront 3])
    by (repeat constructor).
  assert (Hpops : Forall (is_pop (T:=Z)) [PopBack; PopFront; PopBack])
    by (repeat constructor).
  split; [exact HInv|]. split; [exact Hin|]. split; [reflexivity|].
  split; [exact Hpushes|]. split; [exact Hpops|].
  destruct (push_pop_round_trip fresh_1 _ _ HInv Hin eq_refl Hpushes Hpops eq_refl)
    as (H1 & H2 & _ & H4 & H5 & _).
  split; [exact H1|]. split; [exact H2|]. split; [exact H4|exact H5].
Defined.

Lemma single_item_front_is_back_witness :
  Inv (mkSlimDeque [None; Some 42; None] 1 1 0 (Finite 2)) ∧
  front (mkSlimDeque [None; Some 42; None] 1 1 0 (Finite 2))
  = (Return (Some 42), mkSlimDeque [None; Some 42; None] 1 1 0 (Finite 2)) ∧
  back (mkSlimDeque [None; Some 42; None] 1 1 0 (Finite 2))
  = (Return (Some 42), mkSlimDeque [None; Some 42; None] 1 1 0 (Finite 2)).
Proof.
  assert (HInv : Inv (mkSlimDeque [None; Some 42; None] 1 1 0 (Finite 2)))
    by (apply Inv_by_computation; reflexivity).
  split; [exact HInv|].
  destruct (single_item_front_is_back _ HInv eq_refl) as (H1 & H2 & _).
  split; [exact H1|exact H2].
Defined.

(** ** The specification's scenarios, on the exact machine *)

(** Capacity 4, factor 2: four pushes fill the buffer without growth; the
    fifth doubles it, and the snapshot keeps the push order. *)
Example scenario_fill_then_grow :
  ∃ d0 : SlimDeque Z,
    constructor (Finite 4) (Finite 2) = Return d0 ∧
    buffer_length (run [PushBack 1; PushBack 2; PushBack 3; PushBack 4] d0) = 4 ∧
    _numberOfCapacityIncrements
      (run [PushBack 1; PushBack 2; PushBack 3; PushBack 4] d0) = 0 ∧
    getSnapshot
      (run [PushBack 1; PushBack 2; PushBack 3; PushBack 4; PushBack 5] d0)
    = (Return [Some 1; Some 2; Some 3; Some 4; Some 5],
       mkSlimDeque [Some 1; Some 2; Some 3; Some 4; Some 5; None; None; None]
         0 5 1 (Finite 2)).
Proof. eexists. repeat split; by vm_compute. Qed.

(** Default construction; two pushes at the front wrap to the end of the
    buffer, one push at the back lands at index 0. *)
Example scenario_both_ends :
  ∃ d0 : SlimDeque Z,
    constructor DEFAULT_SLIM_DEQUE_INITIAL_CAPACITY
      DEFAULT_SLIM_DEQUE_CAPACITY_INCREMENT_FACTOR = Return d0 ∧
    fst (front (run [PushFront 1; PushFront 2; PushBack 3] d0)) = Return (Some 2) ∧
    fst (back (run [PushFront 1; PushFront 2; PushBack 3] d0)) = Return (Some 3) ∧
    fst (getSnapshot (run [PushFront 1; PushFront 2; PushBack 3] d0))
    = Return [Some 2; Some 1; Some 3] ∧
    _frontIndex (run [PushFront 1; PushFront 2; PushBack 3] d0) = 126.
Proof. eexists. repeat split; by vm_compute. Qed.

(** Capacity 1, factor 1.1: ten pushes at the back grow the buffer one slot
    at a time, nine times, and the snapshot keeps the push order. *)
Example scenario_smallest_growth :
  ∃ d0 : SlimDeque Z,
    constructor (Finite 1) (Finite 1.1) = Return d0 ∧
    buffer_length (run (PushBack <$> [1; 2; 3; 4; 5; 6; 7; 8; 9; 10]) d0) = 10 ∧
    _numberOfCapacityIncrements
      (run (PushBack <$> [1; 2; 3; 4; 5; 6; 7; 8; 9; 10]) d0) = 9 ∧
    fst (getSnapshot (run (PushBack <$> [1; 2; 3; 4; 5; 6; 7; 8; 9; 10]) d0))
    = Return (Some <$> [1; 2; 3; 4; 5; 6; 7; 8; 9; 10]).
Proof. eexists. repeat split; by vm_compute. Qed.

(** ** Instances of the further statements *)

Lemma getters_refine_reference_witness :
  constructor (Finite 1) (Finite 1.1) = Return fresh_1 ∧
  in_range (Finite 1.1) ∧
  front (run sample_calls fresh_1)
  = (match head (ref_run sample_calls []) with
     | Some x => Return (Some x)
     | None => Throw EmptyCollection
     end, run sample_calls fresh_1).
Proof.
  assert (Hnew : constructor (Finite 1) (Finite 1.1) = Return fresh_1) by reflexivity.
  assert (Hin : in_range (Finite 1.1)) by (apply in_range_Finite; reflexivity).
  split; [exact Hnew|]. split; [exact Hin|].
  destruct (getters_refine_reference _ _ _ sample_calls Hnew Hin) as (_ & _ & H & _).
  exact H.
Defined.

Lemma pops_refine_reference_witness :
  constructor (Finite 1) (Finite 1.1) = Return fresh_1 ∧
  in_range (Finite 1.1) ∧
  fst (popBack (run sample_calls fresh_1))
  = match last (ref_run sample_calls []) with
    | Some x => Return (Some x)
    | None => Throw EmptyCollection
    end.
Proof.
  assert (Hnew : constructor (Finite 1) (Finite 1.1) = Return fresh_1) by reflexivity.
  assert (Hin : in_range (Finite 1.1)) by (apply in_range_Finite; reflexivity).
  split; [exact Hnew|]. split; [exact Hin|].
  destruct (pops_refine_reference _ _ _ sample_calls Hnew Hin) as (_ & H & _).
  exact H.
Defined.

Lemma push_then_peek_witness :
  Inv wrapped_full ∧ in_range (_capacityIncrementFactor wrapped_full) ∧
  back (exec (pushBack 11) wrapped_full)
  = (Return (Some 11), exec (pushBack 11) wrapped_full).
Proof.
  assert (HInv : Inv wrapped_full) by (apply Inv_by_computation; reflexivity).
  assert (Hin : in_range (_capacityIncrementFactor wrapped_full))
    by (apply in_range_Finite; reflexivity).
  split; [exact HInv|]. split; [exact Hin|].
  exact (proj1 (push_then_peek 11 wrapped_full HInv Hin)).
Defined.

Lemma pop_undoes_push_witness :
  Inv wrapped_full ∧ in_range (_capacityIncrementFactor wrapped_full) ∧
  fst (popFront (exec (pushFront 7) wrapped_full)) = Return (Some 7) ∧
  getSnapshot (exec popFront (exec (pushFront 7) wrapped_full))
  = (Return (slots wrapped_full), exec popFront (exec (pushFront 7) wrapped_full)).
Proof.
  assert (HInv : Inv wrapped_full) by (apply Inv_by_computation; reflexivity).
  assert (Hin : in_range (_capacityIncrementFactor wrapped_full))
    by (apply in_range_Finite; reflexivity).
  split; [exact HInv|]. split; [exact Hin|].
  destruct (pop_undoes_push 7 wrapped_full HInv Hin) as (_ & H1 & _ & _ & _ & H2 & _).
  split; [exact H1|exact H2].
Defined.

Lemma pop_effects_witness :
  Inv wrapped_full ∧ _size wrapped_full ≠ 0 ∧
  _frontIndex (exec popFront wrapped_full) = (2 + 1) mod 3 ∧
  array_get (_cyclicBuffer (exec popFront wrapped_full)) 2 = None.
Proof.
  assert (HInv : Inv wrapped_full) by (apply Inv_by_computation; reflexivity).
  assert (Hnz : _size wrapped_full ≠ 0) by (intros H; discriminate H).
  split; [exact HInv|]. split; [exact Hnz|].
  destruct (pop_effects wrapped_full HInv Hnz)
    as (_ & _ & _ & _ & _ & _ & _ & _ & _ & _ & H1 & _ & H2 & _).
  split; [exact H1|exact H2].
Defined.

Lemma fixIndex_wraps_once_witness :
  0 < buffer_length wrapped_full ∧
  - buffer_length wrapped_full <= -1 < 2 * buffer_length wrapped_full ∧
  _fixIndexIfNecessary (-1) wrapped_full
  = (Return ((-1) mod buffer_length wrapped_full), wrapped_full).
Proof.
  assert (Hlen : 0 < buffer_length wrapped_full) by reflexivity.
  assert (Hc : - buffer_length wrapped_full <= -1 < 2 * buffer_length wrapped_full)
    by (split; [apply Z.leb_le; reflexivity|reflexivity]).
  split; [exact Hlen|]. split; [exact Hc|].
  exact (proj1 (fixIndex_wraps_once wrapped_full (-1) Hlen Hc)).
Defined.

Lemma vacated_slots_are_undefined_witness :
  constructor (Finite 2) (Finite 1.5)
  = Return (mkSlimDeque (T:=Z) [None; None] 0 0 0 (Finite 1.5)) ∧
  array_get
    (_cyclicBuffer
       (run [PushBack 1; PushBack 2; PopFront]
          (mkSlimDeque [None; None] 0 0 0 (Finite 1.5)))) 0 = None.
Proof.
  assert (Hnew : constructor (Finite 2) (Finite 1.5)
                 = Return (mkSlimDeque (T:=Z) [None; None] 0 0 0 (Finite 1.5)))
    by reflexivity.
  split; [exact Hnew|].
  apply (vacated_slots_are_undefined _ _ _ [PushBack 1; PushBack 2; PopFront] 0 Hnew).
  - split; [apply Z.leb_le; reflexivity|reflexivity].
  - intros k Hk.
    change (0 <= k < 1) in Hk. replace k with 0 by lia.
    intros H; discriminate H.
Defined.

Lemma clear_gives_new_deque_witness :
  constructor (Finite 1) (Finite 1.1) = Return fresh_1 ∧
  ∃ fresh : SlimDeque Z,
    constructor (of_Z (buffer_length (run sample_calls fresh_1))) (Finite 1.1)
    = Return fresh ∧
    exec clear (run sample_calls fresh_1)
    = set_numberOfCapacityIncrements
        (_numberOfCapacityIncrements (run sample_calls fresh_1)) fresh.
Proof.
  assert (Hnew : constructor (Finite 1) (Finite 1.1) = Return fresh_1) by reflexivity.
  split; [exact Hnew|].
  exact (clear_gives_new_deque _ _ _ sample_calls Hnew).
Defined.

Lemma no_growth_within_capacity_witness :
  constructor (Finite 3) NaN
  = Return (mkSlimDeque (T:=Z) [None; None; None] 0 0 0 NaN) ∧
  count_pushes [PushBack 1; PushFront 2; PopBack; PushBack 3; PopFront]
  <= buffer_length (mkSlimDeque (T:=Z) [None; None; None] 0 0 0 NaN) ∧
  buffer_length
    (run [PushBack 1; PushFront 2; PopBack; PushBack 3; PopFront]
       (mkSlimDeque [None; None; None] 0 0 0 NaN)) = 3.
Proof.
  assert (Hnew : constructor (Finite 3) NaN
                 = Return (mkSlimDeque (T:=Z) [None; None; None] 0 0 0 NaN))
    by reflexivity.
  assert (Hroom :
    count_pushes [PushBack 1; PushFront 2; PopBack; PushBack 3; PopFront]
    <= buffer_length (mkSlimDeque (T:=Z) [None; None; None] 0 0 0 NaN))
    by (apply Z.leb_le; reflexivity).
  split; [exact Hnew|]. split; [exact Hroom|].
  exact (proj1 (no_growth_within_capacity _ _ _ _ Hnew Hroom)).
Defined.

Lemma increments_track_capacity_witness :
  constructor (Finite 1) (Finite 1.1) = Return fresh_1 ∧
  _numberOfCapacityIncrements (run sample_calls fresh_1)
  <= _numberOfCapacityIncrements (run (sample_calls ++ [PushBack 11]) fresh_1).
Proof.
  assert (Hnew : constructor (Finite 1) (Finite 1.1) = Return fresh_1) by reflexivity.
  split; [exact Hnew|].
  exact (proj1 (increments_track_capacity _ _ _ sample_calls [PushBack 11] Hnew)).
Defined.

Lemma push_fails_only_full_NaN_witness :
  Inv (mkSlimDeque [Some 5] 0 1 0 NaN) ∧
  accepted (_capacityIncrementFactor (mkSlimDeque [Some 5] 0 1 0 NaN)) ∧
  pushFront 7 (mkSlimDeque [Some 5] 0 1 0 NaN)
  = (Throw RangeError, mkSlimDeque [Some 5] 0 1 0 NaN).
Proof.
  assert (HInv : Inv (mkSlimDeque [Some 5] 0 1 0 NaN))
    by (apply Inv_by_computation; reflexivity).
  assert (Hacc : accepted (_capacityIncrementFactor (mkSlimDeque [Some 5] 0 1 0 NaN)))
    by reflexivity.
  split; [exact HInv|]. split; [exact Hacc|].
  exact (proj1 (push_fails_only_full_NaN pushFront 7 _ (or_intror eq_refl) HInv Hacc)
           (conj eq_refl eq_refl)).
Defined.

Lemma constructor_postcondition_witness :
  constructor (Finite 1) (Finite 1.1) = Return fresh_1 ∧
  ∃ n : Z, is_positive_integer (Finite 1) n ∧ capacity fresh_1 = (Return n, fresh_1).
Proof.
  assert (Hnew : constructor (Finite 1) (Finite 1.1) = Return fresh_1) by reflexivity.
  split; [exact Hnew|].
  destruct (constructor_postcondition _ _ _ Hnew) as (n & Hn & _ & _ & Hcap & _).
  exists n. split; [exact Hn|exact Hcap].
Defined.

Lemma traversal_visits_front_to_back_witness :
  Inv wrapped_full ∧
  _traverseFromFrontToBack record_index ([], wrapped_full)
  = Some ([2; 0; 1], wrapped_full).
Proof.
  assert (HInv : Inv wrapped_full) by (apply Inv_by_computation; reflexivity).
  split; [exact HInv|].
  exact (traversal_visits_front_to_back wrapped_full HInv).
Defined.

Lemma getSnapshot_by_position_witness :
  Inv wrapped_full ∧
  getSnapshot wrapped_full = (Return [Some 8; Some 9; Some 10], wrapped_full).
Proof.
  assert (HInv : Inv wrapped_full) by (apply Inv_by_computation; reflexivity).
  split; [exact HInv|].
  exact (proj1 (getSnapshot_by_position wrapped_full HInv)).
Defined.

Lemma pushes_of_a_list_witness :
  Inv wrapped_full ∧ in_range (_capacityIncrementFactor wrapped_full) ∧
  fst (getSnapshot (run (PushFront <$> [7; 6; 5]) wrapped_full))
  = Return ((Some <$> rev [7; 6; 5]) ++ slots wrapped_full).
Proof.
  assert (HInv : Inv wrapped_full) by (apply Inv_by_computation; reflexivity).
  assert (Hin : in_range (_capacityIncrementFactor wrapped_full))
    by (apply in_range_Finite; reflexivity).
  split; [exact HInv|]. split; [exact Hin|].
  destruct (pushes_of_a_list [7; 6; 5] wrapped_full HInv Hin) as (_ & H & _).
  exact H.
Defined.

Lemma rolling_window_never_grows_witness :
  Inv wrapped_full ∧ _size wrapped_full ≠ 0 ∧
  buffer_length (exec (pushBack 11) (exec popFront wrapped_full)) = 3 ∧
  slots (exec (pushBack 11) (exec popFront wrapped_full))
  = tail (slots wrapped_full) ++ [Some 11].
Proof.
  assert (HInv : Inv wrapped_full) by (apply Inv_by_computation; reflexivity).
  assert (Hnz : _size wrapped_full ≠ 0) by (intros H; discriminate H).
  split; [exact HInv|]. split; [exact Hnz|].
  destruct (rolling_window_never_grows 11 wrapped_full HInv Hnz)
    as (_ & _ & H1 & _ & _ & _ & _ & _ & H2 & _).
  split; [exact H1|exact H2].
Defined.

Lemma growth_at_most_doubles_witness :
  Inv wrapped_full ∧ in_range (_capacityIncrementFactor wrapped_full) ∧
  _size wrapped_full = buffer_length wrapped_full ∧
  buffer_length wrapped_full < buffer_length (exec (pushBack 11) wrapped_full).
Proof.
  assert (HInv : Inv wrapped_full) by (apply Inv_by_computation; reflexivity).
  assert (Hin : in_range (_capacityIncrementFactor wrapped_full))
    by (apply in_range_Finite; reflexivity).
  split; [exact HInv|]. split; [exact Hin|]. split; [reflexivity|].
  exact (proj1 (growth_at_most_doubles pushBack 11 wrapped_full
                  (or_introl eq_refl) HInv Hin eq_refl)).
Defined.
